(** * gopher-parse-sitemap: the parse core and the retrieval layer of sitemap.go

    A shallow embedding of [sitemap.go].  The Go functions become Rocq
    functions over explicit state: the position of the input stream, the
    state captured by the consumer closure, and the list of observable
    events (stream reads, log lines, consumer calls, HTTP requests).

    The XML tokenizer, the HTTP client, the URL parser, the clock and the
    random generator are libraries outside the repository; they appear as
    the oracles of a [World] record or, for the tokenizer, through the
    sequence of tokens it produces. *)

From Stdlib Require Import String Ascii List ZArith QArith Bool Lia.
Import ListNotations.
Close Scope Q_scope.
Open Scope string_scope.
Open Scope list_scope.

(** ** Go error values *)

(** The dynamic types of the error values that flow through [sitemap.go].
    Type assertions in [isTimeoutError] look at exactly this tag. *)
Inductive error : Type :=
| io_EOF                                            (* the value io.EOF *)
| errorString (s : string)                          (* errors.New, fmt.Errorf with %v only *)
| netError (msg : string) (timeout : bool)          (* implements net.Error, not a url.Error *)
| urlError (Op URL : string) (inner : error)        (* url.Error *)
| syntaxError (msg : string)                        (* xml.SyntaxError *)
| validationError (field record : string).          (* a record failed the field rules *)

Definition quote : string := String (ascii_of_nat 34) EmptyString.

(** The [Error() string] method.  A [url.Error] prints its URL with [%q];
    the escaping of special characters inside the URL is not modelled. *)
Fixpoint Error (e : error) : string :=
  match e with
  | io_EOF => "EOF"
  | errorString s => s
  | netError msg _ => msg
  | urlError op u inner =>
      (op ++ " " ++ quote ++ u ++ quote ++ ": " ++ Error inner)%string
  | syntaxError msg => ("XML syntax error: " ++ msg)%string
  | validationError field record =>
      (record ++ ": missing or invalid <" ++ field ++ ">")%string
  end.

(** [err.(net.Error)]: the value has the methods of [net.Error].
    A [url.Error] has them too: [Timeout] and [Temporary] delegate. *)
Definition is_netError (e : error) : bool :=
  match e with
  | netError _ _ | urlError _ _ _ => true
  | _ => false
  end.

(** The [Timeout() bool] method; [false] where the type has none.
    On a [url.Error] it asks the wrapped error. *)
Fixpoint Timeout (e : error) : bool :=
  match e with
  | netError _ t => t
  | urlError _ _ inner => Timeout inner
  | _ => false
  end.

Definition is_EOF (e : error) : bool :=
  match e with io_EOF => true | _ => false end.

(** [fmt.Errorf(prefix + ": %v", err)]: the argument is flattened to its
    text; the result is a plain [errors.errorString] value that
    does not wrap [err]. *)
Definition Errorf_v (prefix : string) (err : error) : error :=
  errorString (prefix ++ ": " ++ Error err)%string.

(** A Go [(value, error)] pair of which exactly one side is meaningful. *)
Inductive result (A : Type) : Type :=
| Ok (a : A)
| Err (e : error).
Arguments Ok {A} a.
Arguments Err {A} e.

(** A call either returns or panics. *)
Inductive outcome (A : Type) : Type :=
| Returns (a : A)
| Panics (msg : string).
Arguments Returns {A} a.
Arguments Panics {A} msg.

(** ** Record model *)

(** [type Frequency = string] and its constants. *)
Definition Frequency : Type := string.
Definition Always  : Frequency := "always".
Definition Hourly  : Frequency := "hourly".
Definition Daily   : Frequency := "daily".
Definition Weekly  : Frequency := "weekly".
Definition Monthly : Frequency := "monthly".
Definition Yearly  : Frequency := "yearly".
Definition Never   : Frequency := "never".

Definition known_frequencies : list Frequency :=
  [Always; Hourly; Daily; Weekly; Monthly; Yearly; Never].

Definition is_known_frequency (f : string) : bool :=
  existsb (String.eqb f) known_frequencies.

(** A point in time, as seconds since the epoch. *)
Definition Time : Type := Z.

(** The [Entry] interface: four getters on an immutable value.  The
    priority is a [float32] in the source; the embedding keeps the real
    number it denotes. *)
Record Entry : Type := mkEntry {
  GetLocation : string;
  GetLastModified : option Time;
  GetChangeFrequency : Frequency;
  GetPriority : Q
}.

(** The [IndexEntry] interface. *)
Record IndexEntry : Type := mkIndexEntry {
  IndexGetLocation : string;
  IndexGetLastModified : option Time
}.

(** ** Streams and tokens *)

(** What [xml.Decoder.Token] can yield. *)
Inductive Token : Type :=
| StartElement (name : string)
| EndElement (name : string)
| CharData (text : string)
| Comment (text : string)
| ProcInst (target : string)
| Directive (text : string).

(** An [io.Reader] is a one-shot stream: it has a position and no way back.
    The stream is represented by what it will still deliver.  Its bytes are
    grouped by the token they encode ([Bytes t]); [Garbage] stands for bytes
    the tokenizer rejects as malformed markup; [Fails e] is a read that
    returns the error [e].  The empty list is the exhausted stream, whose
    reads return [io.EOF].  The tokenizer checks the nesting of the tags
    itself and keeps no state here: a place where it would report an
    end tag that does not match, or the end of the input inside an open
    element, is a [Garbage] item of the stream. *)
Inductive item : Type :=
| Bytes (t : Token)
| Garbage (msg : string)
| Fails (e : error).

Definition Reader : Type := list item.

Definition is_data (i : item) : bool :=
  match i with Fails _ => false | _ => true end.

(** [ioutil.ReadAll]: reads until the first error or the end of the stream.
    Returns the data read, the error ([None] for [nil]; [io.EOF] is not
    reported as an error) and the reader where it now stands. *)
Fixpoint ReadAll (r : Reader) : list item * option error * Reader :=
  match r with
  | [] => ([], None, [])
  | Fails e :: r' => ([], if is_EOF e then None else Some e, r')
  | i :: r' => let '(body, err, r'') := ReadAll r' in (i :: body, err, r'')
  end.

(** [decoder.Token()] on a decoder that reads from [d]. *)
Definition NextToken (d : Reader) : result Token * Reader :=
  match d with
  | [] => (Err io_EOF, [])
  | Bytes t :: d' => (Ok t, d')
  | Garbage msg :: d' => (Err (syntaxError msg), d')
  | Fails e :: d' => (Err e, d')
  end.

(** ** HTTP values *)

(** A parsed URL, [*url.URL]; only its identity matters here. *)
Inductive URL : Type := mkURL (raw : string).

(** [time.Duration] counts nanoseconds. *)
Definition Duration : Type := Z.
Definition Second : Duration := 1000000000%Z.

(** The fields of [http.Transport] that [sitemap.go] sets.  A field left
    out of a Go composite literal has its zero value: no proxy, and a
    handshake timeout of [0], which the transport reads as no timeout. *)
Record Transport : Type := mkTransport {
  Proxy : option URL;
  TLSHandshakeTimeout : Duration;
  InsecureSkipVerify : bool
}.

Record Client : Type := mkClient {
  ClientTransport : Transport;
  ClientTimeout : Duration
}.

Record Request : Type := mkRequest {
  Method : string;
  RequestURL : URL;
  Header : list (string * string)
}.

(** ** Observable events *)

Inductive event : Type :=
| EvReadAll (body : list item) (err : option error)   (* ioutil.ReadAll returned *)
| EvLogBody (body : list item)                        (* log.Println(string(body)) *)
| EvLog (line : string)                               (* log.Println of a message *)
| EvToken (t : result Token)                          (* the decoder pulled a token *)
| EvConsume (e : Entry) (ret : option error)          (* consumer(entry) returned ret *)
| EvConsumeIndex (e : IndexEntry) (ret : option error)
| EvDo (c : Client) (req : Request)                   (* client.Do(req) *)
| EvClose.                                            (* res.Body.Close() *)

(** [type EntryConsumer func(Entry) error]; [St] is the state the closure
    captures and may mutate. *)
Definition EntryConsumer (St : Type) : Type := St -> Entry -> St * option error.

(** [type IndexEntryConsumer func(IndexEntry) error]. *)
Definition IndexEntryConsumer (St : Type) : Type :=
  St -> IndexEntry -> St * option error.

Definition consumer_calls (evs : list event) : list (Entry * option error) :=
  flat_map (fun ev => match ev with EvConsume e r => [(e, r)] | _ => [] end) evs.

Definition index_consumer_calls (evs : list event) : list (IndexEntry * option error) :=
  flat_map (fun ev => match ev with EvConsumeIndex e r => [(e, r)] | _ => [] end) evs.

Definition requests (evs : list event) : list (Client * Request) :=
  flat_map (fun ev => match ev with EvDo c r => [(c, r)] | _ => [] end) evs.

(** ** Field rules *)

(** The spec leaves two policies to the implementer and treats the date
    parser as a library; the embedding takes them as parameters. *)
Inductive PriorityPolicy : Type := Clamp | Reject.
Inductive FrequencyPolicy : Type := RejectRecord | SubstituteMarker.

Record Rules : Type := mkRules {
  priority_policy : PriorityPolicy;     (* a priority outside [0,1] *)
  frequency_policy : FrequencyPolicy;   (* a changefreq that is no known token *)
  frequency_marker : Frequency;         (* the default / absent marker *)
  parse_time : string -> option Time    (* the date parser *)
}.

(** Decimal text to a rational: an optional sign, digits, an optional
    point, digits; at least one digit. *)
Definition digit_of (c : ascii) : option Z :=
  let n := nat_of_ascii c in
  if andb (Nat.leb 48 n) (Nat.leb n 57) then Some (Z.of_nat (n - 48)) else None.

Fixpoint parse_digits (s : string) (num : Z) (den : positive) (dot seen : bool)
  : option (Z * positive) :=
  match s with
  | EmptyString => if seen then Some (num, den) else None
  | String c s' =>
      match digit_of c with
      | Some d =>
          parse_digits s' (10 * num + d)%Z (if dot then (10 * den)%positive else den) dot true
      | None =>
          if andb (Ascii.eqb c ".") (negb dot) then parse_digits s' num den true seen
          else None
      end
  end.

Definition parse_decimal (s : string) : option Q :=
  let signed (neg : bool) (body : string) :=
    match parse_digits body 0%Z 1%positive false false with
    | Some (n, d) => Some (Qmake (if neg then (- n)%Z else n) d)
    | None => None
    end in
  match s with
  | String "-" s' => signed true s'
  | String "+" s' => signed false s'
  | _ => signed false s
  end.

Definition in_unit_interval (q : Q) : bool :=
  andb (Qle_bool 0 q) (Qle_bool q 1).

Definition clamp (q : Q) : Q :=
  if Qle_bool q 0 then 0%Q else if Qle_bool 1 q then 1%Q else q.

(** The children of a decoded element: name and character data, in
    document order. *)
Definition Children : Type := list (string * string).

(** The text of the child called [name]; a later one overrides an
    earlier one, as the decoder assigns the field again. *)
Fixpoint child (name : string) (kids : Children) : option string :=
  match kids with
  | [] => None
  | (n, t) :: kids' =>
      match child name kids' with
      | Some t' => Some t'
      | None => if String.eqb n name then Some t else None
      end
  end.

(** ** Streaming walk engine and record materializers

    [parseLoop], [entryParser] and [indexEntryParser] are called by
    [sitemap.go] and defined in a file of the repository that is not part
    of the sources at hand. *)

(** What a walk leaves behind: the events it produced, the reader where it
    now stands, the consumer's state and the returned error ([None] is
    [nil]). *)
Definition Walk (St : Type) : Type := list event * (Reader * St * option error).

Definition emit {A : Type} (ev : event) (x : list event * A) : list event * A :=
  (ev :: fst x, snd x).

Definition emits {A : Type} (evs : list event) (x : list event * A) : list event * A :=
  (evs ++ fst x, snd x).

(** Modelled from the spec: the tokenizer's structured-decode facility
    ([decoder.DecodeElement]), spec 4.2 step 1: it decodes the children of
    the element whose start tag was just read, scoped exactly to this
    element's subtree.  [depth] counts the elements open below that
    element, [cur] is the direct child being read with the character data
    seen so far, [acc] the children already closed, latest first.  The end
    of the stream or a failed read inside the element is an error. *)
Fixpoint DecodeElement (d : Reader) (depth : nat) (cur : option (string * string))
    (acc : Children) : list event * (Reader * result Children) :=
  match d with
  | [] => ([EvToken (Err io_EOF)], ([], Err (syntaxError "unexpected EOF")))
  | Fails e :: d' =>
      ([EvToken (Err e)],
       (d', Err (if is_EOF e then syntaxError "unexpected EOF" else e)))
  | Garbage msg :: d' =>
      ([EvToken (Err (syntaxError msg))], (d', Err (syntaxError msg)))
  | Bytes t :: d' =>
      emit (EvToken (Ok t))
        match t with
        | StartElement n =>
            match depth with
            | O => DecodeElement d' 1 (Some (n, "")) acc
            | S _ => DecodeElement d' (S depth) cur acc
            end
        | EndElement _ =>
            match depth with
            | O => ([], (d', Ok (rev acc)))
            | S O =>
                DecodeElement d' 0 None
                  (match cur with Some c => c :: acc | None => acc end)
            | S k => DecodeElement d' k cur acc
            end
        | CharData text =>
            match depth, cur with
            | S O, Some (n, t0) => DecodeElement d' 1 (Some (n, (t0 ++ text)%string)) acc
            | _, _ => DecodeElement d' depth cur acc
            end
        | _ => DecodeElement d' depth cur acc
        end
  end.

(** Modelled from the spec: the field rules of a page entry, spec 3 and
    4.2 steps 2 and 3.  [loc] is required and non-empty; [lastmod] is
    absent when missing or unparseable; [changefreq] outside the
    enumeration follows the frequency policy; [priority] defaults to 0.5
    when absent and follows the priority policy outside [0,1].  Priority
    text that is no number fails the domain rule. *)
Definition materializeEntry (rules : Rules) (kids : Children) : result Entry :=
  match child "loc" kids with
  | None | Some EmptyString => Err (validationError "loc" "url")
  | Some loc =>
      let lastmod :=
        match child "lastmod" kids with
        | Some t => parse_time rules t
        | None => None
        end in
      let freq :=
        match child "changefreq" kids with
        | None => Ok (frequency_marker rules)
        | Some f =>
            if is_known_frequency f then Ok f
            else match frequency_policy rules with
                 | RejectRecord => Err (validationError "changefreq" loc)
                 | SubstituteMarker => Ok (frequency_marker rules)
                 end
        end in
      let prio :=
        match child "priority" kids with
        | None => Ok (1 # 2)%Q
        | Some t =>
            match parse_decimal t with
            | None => Err (validationError "priority" loc)
            | Some q =>
                if in_unit_interval q then Ok q
                else match priority_policy rules with
                     | Reject => Err (validationError "priority" loc)
                     | Clamp => Ok (clamp q)
                     end
            end
        end in
      match freq, prio with
      | Err e, _ => Err e
      | _, Err e => Err e
      | Ok f, Ok p => Ok (mkEntry loc lastmod f p)
      end
  end.

(** Modelled from the spec: the field rules of an index entry, spec 3. *)
Definition materializeIndexEntry (rules : Rules) (kids : Children) : result IndexEntry :=
  match child "loc" kids with
  | None | Some EmptyString => Err (validationError "loc" "sitemap")
  | Some loc =>
      Ok (mkIndexEntry loc
            (match child "lastmod" kids with
             | Some t => parse_time rules t
             | None => None
             end))
  end.

(** The callback [parseLoop] takes, a function of the decoder and the
    start element that returns an error.  The decoder is the reader it
    advances; the start element is given by its local name. *)
Definition elementParser (St : Type) : Type :=
  Reader -> string -> St -> Walk St.

(** Modelled from the spec: the page-entry materializer, spec 4.2.  A
    start element other than [url] is ignored.  A decode or validation
    error is returned and the consumer is not called.  Otherwise the
    record is handed to the consumer and the consumer's error is returned
    as it is. *)
Definition entryParser {St : Type} (rules : Rules) (consumer : EntryConsumer St)
  : elementParser St :=
  fun d se s =>
    if String.eqb se "url" then
      let '(evs, (d', decoded)) := DecodeElement d 0 None [] in
      match decoded with
      | Err e => (evs, (d', s, Some e))
      | Ok kids =>
          match materializeEntry rules kids with
          | Err e => (evs, (d', s, Some e))
          | Ok entry =>
              let '(s', ret) := consumer s entry in
              (evs ++ [EvConsume entry ret], (d', s', ret))
          end
      end
    else ([], (d, s, None)).

(** Modelled from the spec: the index-entry materializer, spec 4.2, for
    the element [sitemap]. *)
Definition indexEntryParser {St : Type} (rules : Rules) (consumer : IndexEntryConsumer St)
  : elementParser St :=
  fun d se s =>
    if String.eqb se "sitemap" then
      let '(evs, (d', decoded)) := DecodeElement d 0 None [] in
      match decoded with
      | Err e => (evs, (d', s, Some e))
      | Ok kids =>
          match materializeIndexEntry rules kids with
          | Err e => (evs, (d', s, Some e))
          | Ok entry =>
              let '(s', ret) := consumer s entry in
              (evs ++ [EvConsumeIndex entry ret], (d', s', ret))
          end
      end
    else ([], (d, s, None)).

(** Modelled from the spec: the streaming walk engine, spec 4.1.  It reads
    the stream token by token; the end of the stream ends the walk with
    [nil]; a tokenizer error is returned; every start element goes to the
    handler, and a handler error stops the walk at once and is returned.
    The loop has no bound in the source; [fuel] bounds the iterations and
    [None] means the bound was hit. *)
Fixpoint parseLoop_fuel {St : Type} (fuel : nat) (d : Reader)
    (parser : elementParser St) (s : St) : option (Walk St) :=
  match fuel with
  | O => None
  | S fuel' =>
      let '(t, d1) := NextToken d in
      match t with
      | Err e => Some ([EvToken t], (d1, s, if is_EOF e then None else Some e))
      | Ok (StartElement se) =>
          let '(evs, (d2, s2, perr)) := parser d1 se s in
          match perr with
          | Some e => Some (EvToken t :: evs, (d2, s2, Some e))
          | None =>
              option_map (emits (EvToken t :: evs)) (parseLoop_fuel fuel' d2 parser s2)
          end
      | Ok _ => option_map (emit (EvToken t)) (parseLoop_fuel fuel' d1 parser s)
      end
  end.

(** Every iteration takes at least one item off the stream, so one more
    than its length is fuel enough (see [parseLoop_total]). *)
Definition parseLoop {St : Type} (d : Reader) (parser : elementParser St) (s : St)
  : option (Walk St) :=
  parseLoop_fuel (S (length d)) d parser s.

(** ** The parse entry points of [sitemap.go] *)

(** [Parse]: reads the whole reader with [ioutil.ReadAll], logs the body
    when that read reported no error, and then runs [parseLoop] on the
    same reader, which stands where [ReadAll] left it. *)
Definition Parse {St : Type} (rules : Rules) (reader : Reader)
    (consumer : EntryConsumer St) (s : St) : option (Walk St) :=
  let '(body, err, reader') := ReadAll reader in
  let logged := match err with None => [EvLogBody body] | Some _ => [] end in
  option_map (emits (EvReadAll body err :: logged))
    (parseLoop reader' (entryParser rules consumer) s).

(** [ParseIndex]: runs [parseLoop] on the reader. *)
Definition ParseIndex {St : Type} (rules : Rules) (reader : Reader)
    (consumer : IndexEntryConsumer St) (s : St) : option (Walk St) :=
  parseLoop reader (indexEntryParser rules consumer) s.

(** ** The retrieval layer of [sitemap.go] *)

(** The libraries the retrieval layer calls, as seen by one call. *)
Record World : Type := mkWorld {
  UnixNano : Z;                                    (* time.Now().UnixNano() *)
  rand_draw : Z -> nat -> nat;                     (* seed and bound to the generator's draw *)
  url_Parse : string -> result URL;                (* url.Parse *)
  client_Do : Client -> Request -> result Reader   (* client.Do: the response body *)
}.

(** What a fetch leaves behind: events, consumer state, and how the call
    ended. *)
Definition Fetch (St : Type) : Type := list event * (St * outcome (option error)).

(** [rand.New(rand.NewSource(seed)).Intn(n)]: panics unless [n > 0],
    otherwise a number below [n]. *)
Definition Intn (w : World) (seed : Z) (n : nat) : outcome nat :=
  match n with
  | O => Panics "invalid argument to Intn"
  | S _ => Returns (Nat.modulo (rand_draw w seed n) n)
  end.

(** [http.NewRequest(method, url, nil)]: fails when the URL does not parse. *)
Definition http_NewRequest (w : World) (method url : string) : result Request :=
  match url_Parse w url with
  | Err e => Err e
  | Ok u => Ok (mkRequest method u [])
  end.

(** [req.Header.Set(key, value)]. *)
Definition Header_Set (req : Request) (key value : string) : Request :=
  mkRequest (Method req) (RequestURL req)
    ((key, value) :: filter (fun kv => negb (String.eqb (fst kv) key)) (Header req)).

(** [isTimeoutError]: true, with a log line, when the error is a
    [net.Error] whose [Timeout()] holds, or a [url.Error] wrapping
    one. *)
Definition isTimeoutError (err : error) : list event * bool :=
  if andb (is_netError err) (Timeout err) then ([EvLog "Timeout error"], true)
  else
    match err with
    | urlError _ _ inner =>
        if andb (is_netError inner) (Timeout inner)
        then ([EvLog "Timeout error"], true)
        else ([], false)
    | _ => ([], false)
    end.

(** [makeRequest]: builds the GET request, sets the User-Agent, sends it
    and parses the body; both failures are re-created with [fmt.Errorf]
    and [%v].  The body is closed when the function returns. *)
Definition makeRequest {St : Type} (w : World) (rules : Rules) (client : Client)
    (sitemapURL userAgent : string) (consumer : EntryConsumer St) (s : St)
  : option (list event * (St * option error)) :=
  match http_NewRequest w "GET" sitemapURL with
  | Err err => Some ([], (s, Some (Errorf_v "failed to create request" err)))
  | Ok req0 =>
      let req := Header_Set req0 "User-Agent" userAgent in
      match client_Do w client req with
      | Err err =>
          Some ([EvDo client req; EvLog (Error err)],
                (s, Some (Errorf_v "failed to make request" err)))
      | Ok body =>
          match Parse rules body consumer s with
          | None => None
          | Some (evs, (_, s', ret)) => Some (EvDo client req :: evs ++ [EvClose], (s', ret))
          end
      end
  end.

Definition returned {St : Type} (x : option (list event * (St * option error)))
  : option (Fetch St) :=
  option_map (fun '(evs, (s, ret)) => (evs, (s, Returns ret))) x.

(** [parseWithProxy]: picks a proxy at random, parses its URL, and sends
    the request through a client with a 10 s handshake timeout and a 20 s
    overall timeout, certificate verification off. *)
Definition parseWithProxy {St : Type} (w : World) (rules : Rules)
    (sitemapURL : string) (proxyServers : list string) (userAgent : string)
    (consumer : EntryConsumer St) (s : St) : option (Fetch St) :=
  match Intn w (UnixNano w) (length proxyServers) with
  | Panics msg => Some ([], (s, Panics msg))
  | Returns i =>
      match nth_error proxyServers i with
      | None => Some ([], (s, Panics "index out of range"))
      | Some selectedProxy =>
          match url_Parse w selectedProxy with
          | Err err =>
              Some ([EvLog (Error err)],
                    (s, Returns (Some (Errorf_v "failed to parse proxy URL" err))))
          | Ok proxyURL =>
              let transport := mkTransport (Some proxyURL) (10 * Second)%Z true in
              let client := mkClient transport (20 * Second)%Z in
              returned (makeRequest w rules client sitemapURL userAgent consumer s)
          end
      end
  end.

(** [parseWithoutProxy]: the same client without a proxy. *)
Definition parseWithoutProxy {St : Type} (w : World) (rules : Rules)
    (sitemapURL userAgent : string) (consumer : EntryConsumer St) (s : St)
  : option (Fetch St) :=
  let transport := mkTransport None (10 * Second)%Z true in
  let client := mkClient transport (20 * Second)%Z in
  returned (makeRequest w rules client sitemapURL userAgent consumer s).

(** [ParseFromSite]: the proxied attempt; when its error passes
    [isTimeoutError], the direct attempt; any other error is returned. *)
Definition ParseFromSite {St : Type} (w : World) (rules : Rules)
    (sitemapURL : string) (proxyServers : list string) (userAgent : string)
    (consumer : EntryConsumer St) (s : St) : option (Fetch St) :=
  match parseWithProxy w rules sitemapURL proxyServers userAgent consumer s with
  | None => None
  | Some (evs, (s1, Panics msg)) => Some (evs, (s1, Panics msg))
  | Some (evs, (s1, Returns None)) => Some (evs, (s1, Returns None))
  | Some (evs, (s1, Returns (Some err))) =>
      let '(logged, timed_out) := isTimeoutError err in
      if timed_out then
        option_map
          (emits (evs ++ logged ++
                  [EvLog "Proxy request timed out. Falling back to direct request."]))
          (parseWithoutProxy w rules sitemapURL userAgent consumer s1)
      else Some (evs ++ logged, (s1, Returns (Some err)))
  end.

(** [ParseIndexFromSite]: picks a proxy at random, parses its URL, and
    sends the request through a client with a 60 s overall timeout and no
    handshake timeout set, certificate verification off; the body goes to
    [ParseIndex]. *)
Definition ParseIndexFromSite {St : Type} (w : World) (rules : Rules)
    (sitemapURL : string) (proxyServers : list string) (userAgent : string)
    (consumer : IndexEntryConsumer St) (s : St) : option (Fetch St) :=
  match Intn w (UnixNano w) (length proxyServers) with
  | Panics msg => Some ([], (s, Panics msg))
  | Returns i =>
      match nth_error proxyServers i with
      | None => Some ([], (s, Panics "index out of range"))
      | Some selectedProxy =>
          match url_Parse w selectedProxy with
          | Err err =>
              Some ([], (s, Returns (Some (Errorf_v "failed to parse proxy URL" err))))
          | Ok proxyURL =>
              let transport := mkTransport (Some proxyURL) 0%Z true in
              let client := mkClient transport (60 * Second)%Z in
              match http_NewRequest w "GET" sitemapURL with
              | Err err =>
                  Some ([], (s, Returns (Some (Errorf_v "failed to create request" err))))
              | Ok req0 =>
                  let req := Header_Set req0 "User-Agent" userAgent in
                  match client_Do w client req with
                  | Err err =>
                      Some ([EvDo client req],
                            (s, Returns (Some (Errorf_v "failed to make request" err))))
                  | Ok body =>
                      match ParseIndex rules body consumer s with
                      | None => None
                      | Some (evs, (_, s', ret)) =>
                          Some (EvDo client req :: evs ++ [EvClose], (s', Returns ret))
                      end
                  end
              end
          end
      end
  end.

(** ** Documents *)

(** A child element with character data only. *)
Definition element (name text : string) : list Token :=
  [StartElement name; CharData text; EndElement name].

(** The tokens between the start tag of an element and the token after
    its end tag, for an element named [name] with the children [kids]. *)
Definition element_body (name : string) (kids : Children) : list Token :=
  flat_map (fun kv => element (fst kv) (snd kv)) kids ++ [EndElement name].

(** A [url] (or [sitemap]) element. *)
Definition record_element (name : string) (kids : Children) : list Token :=
  StartElement name :: element_body name kids.

(** A sitemap document: a root holding the records. *)
Definition document (root name : string) (records : list Children) : list Token :=
  StartElement root :: flat_map (record_element name) records ++ [EndElement root].

Definition urlset (records : list Children) : list Token :=
  document "urlset" "url" records.

Definition sitemapindex (records : list Children) : list Token :=
  document "sitemapindex" "sitemap" records.

(** The stream that delivers a document and then ends. *)
Definition stream_of (doc : list Token) : Reader := map Bytes doc.

(** A well-formed page record: a non-empty [loc], a known [changefreq]
    if any, a [priority] in [0,1] if any, and no other children. *)
Definition wellformed_url (kids : Children) : bool :=
  match child "loc" kids with
  | None | Some EmptyString => false
  | Some _ =>
      andb
        (match child "changefreq" kids with
         | None => true
         | Some f => is_known_frequency f
         end)
        (match child "priority" kids with
         | None => true
         | Some t =>
             match parse_decimal t with
             | Some q => in_unit_interval q
             | None => false
             end
         end)
  end.

(** A well-formed index record: a non-empty [loc]. *)
Definition wellformed_sitemap (kids : Children) : bool :=
  match child "loc" kids with
  | None | Some EmptyString => false
  | Some _ => true
  end.

(** ** What a walk over a document should produce *)

Definition token_events (doc : list Token) : list event :=
  map (fun t => EvToken (Ok t)) doc.

(** The events and the final consumer state of a walk over the record
    elements [records], when the handler turns a record with children
    [kids] into [handle s kids]. *)
Fixpoint deliver {St : Type} (name : string) (handle : St -> Children -> list event * St)
    (s : St) (records : list Children) : list event * St :=
  match records with
  | [] => ([], s)
  | kids :: records' =>
      let '(evs, s1) := handle s kids in
      let '(evs', s2) := deliver name handle s1 records' in
      (EvToken (Ok (StartElement name)) :: evs ++ evs', s2)
  end.

(** One url element: its tokens are read, then the consumer is called
    with the materialized record. *)
Definition handle_entry {St : Type} (rules : Rules) (consumer : EntryConsumer St)
    (s : St) (kids : Children) : list event * St :=
  match materializeEntry rules kids with
  | Ok entry =>
      let '(s', ret) := consumer s entry in
      (token_events (element_body "url" kids) ++ [EvConsume entry ret], s')
  | Err _ => (token_events (element_body "url" kids), s)
  end.

(** One sitemap element of an index. *)
Definition handle_index_entry {St : Type} (rules : Rules) (consumer : IndexEntryConsumer St)
    (s : St) (kids : Children) : list event * St :=
  match materializeIndexEntry rules kids with
  | Ok entry =>
      let '(s', ret) := consumer s entry in
      (token_events (element_body "sitemap" kids) ++ [EvConsumeIndex entry ret], s')
  | Err _ => (token_events (element_body "sitemap" kids), s)
  end.

(** ** Sample inputs *)

Definition sample_rules : Rules := mkRules Reject RejectRecord "" (fun _ => None).

(** A consumer that counts its calls and never fails. *)
Definition counting : EntryConsumer nat := fun n _ => (S n, None).
Definition counting_index : IndexEntryConsumer nat := fun n _ => (S n, None).

(** A consumer that fails on its [k]-th call (counted from 1). *)
Definition failing_at (k : nat) (e : error) : EntryConsumer nat :=
  fun n _ => (S n, if Nat.eqb (S n) k then Some e else None).

Definition page (loc : string) : Children := [("loc", loc)].

Definition two_pages : list Token :=
  urlset [page "https://x/a"; page "https://x/b"].

Definition three_pages : list Token :=
  urlset [page "https://x/a"; page "https://x/b"; page "https://x/c"].

Definition ten_pages : list Token :=
  urlset (map page ["https://x/1"; "https://x/2"; "https://x/3"; "https://x/4";
                    "https://x/5"; "https://x/6"; "https://x/7"; "https://x/8";
                    "https://x/9"; "https://x/10"]).

Definition priced_page (loc priority : string) : Children :=
  [("loc", loc); ("priority", priority)].

Definition two_sitemaps : list Token :=
  sitemapindex [page "https://x/s1.xml"; page "https://x/s2.xml"].

Definition sample_site : string := "https://x/sitemap.xml".
Definition sample_proxy : string := "http://10.0.0.1:8080".
Definition sample_agent : string := "bot/1.0".

(** What [client.Do] returns when the client's overall timeout expires:
    a [url.Error] around a [net.Error] whose [Timeout()] holds. *)
Definition timeout_error : error :=
  urlError "Get" sample_site
    (netError "context deadline exceeded (Client.Timeout exceeded while awaiting headers)"
       true).

(** A world where every URL parses, a request through a proxy times out
    and a direct request is answered with [two_pages]. *)
Definition proxy_times_out : World :=
  mkWorld 0 (fun _ _ => 0) (fun u => Ok (mkURL u))
    (fun c _ =>
       match Proxy (ClientTransport c) with
       | Some _ => Err timeout_error
       | None => Ok (stream_of two_pages)
       end).

(** A world where every URL parses and every request is answered, by a
    body that holds [doc]. *)
Definition all_reachable (doc : list Token) : World :=
  mkWorld 0 (fun _ _ => 0) (fun u => Ok (mkURL u)) (fun _ _ => Ok (stream_of doc)).

(** A read that runs into the deadline of the connection. *)
Definition stalled : error := netError "read tcp: i/o timeout" true.

(** A world where every URL parses, the body that comes through a proxy
    stalls on every read, and a direct request is answered with
    [two_pages]. *)
Definition proxy_stalls : World :=
  mkWorld 0 (fun _ _ => 0) (fun u => Ok (mkURL u))
    (fun c _ =>
       match Proxy (ClientTransport c) with
       | Some _ => Ok [Fails stalled; Fails stalled]
       | None => Ok (stream_of two_pages)
       end).

(** ** Comparing the two fetches *)

(** The client of [ParseIndexFromSite], given the client of
    [parseWithProxy]: the same proxy and trust setting, a 60 s overall
    timeout and no handshake timeout. *)
Definition with_index_timeouts (c : Client) : Client :=
  mkClient
    (mkTransport (Proxy (ClientTransport c)) 0%Z (InsecureSkipVerify (ClientTransport c)))
    (60 * Second)%Z.

Definition how_it_ended {St : Type} (f : Fetch St) : outcome (option error) :=
  snd (snd f).

Definition timeouts_of (c : Client) : Duration * Duration :=
  (TLSHandshakeTimeout (ClientTransport c), ClientTimeout c).

(** The proxy of each request a fetch sent, in order; [None] is a
    direct request. *)
Definition routes {St : Type} (f : option (Fetch St)) : option (list (option URL)) :=
  option_map (fun f => map (fun cr => Proxy (ClientTransport (fst cr))) (requests (fst f))) f.

(** The handshake and overall timeouts of each request a fetch sent. *)
Definition timeouts {St : Type} (f : option (Fetch St)) : option (list (Duration * Duration)) :=
  option_map (fun f => map (fun cr => timeouts_of (fst cr)) (requests (fst f))) f.

(** The run of a fetch up to its first request: either it stops before
    sending one, with the panic or the error of the step that stopped it,
    or its first request goes through [client proxyURL] for the selected
    proxy. *)
Definition first_attempt {St : Type} (w : World) (sitemapURL : string)
    (proxyServers : list string) (userAgent : string) (client : URL -> Client)
    (f : Fetch St) : Prop :=
  match Intn w (UnixNano w) (length proxyServers) with
  | Panics msg => requests (fst f) = [] /\ how_it_ended f = Panics msg
  | Returns i =>
      match nth_error proxyServers i with
      | None => requests (fst f) = [] /\ how_it_ended f = Panics "index out of range"
      | Some selectedProxy =>
          match url_Parse w selectedProxy with
          | Err err =>
              requests (fst f) = [] /\
              how_it_ended f = Returns (Some (Errorf_v "failed to parse proxy URL" err))
          | Ok proxyURL =>
              match http_NewRequest w "GET" sitemapURL with
              | Err err =>
                  requests (fst f) = [] /\
                  how_it_ended f = Returns (Some (Errorf_v "failed to create request" err))
              | Ok req0 =>
                  hd_error (requests (fst f)) =
                  Some (client proxyURL, Header_Set req0 "User-Agent" userAgent)
              end
          end
      end
  end.

Definition no_request (ev : event) : Prop :=
  match ev with EvDo _ _ => False | _ => True end.

(** ** The file entry points of [sitemap.go] *)

(** [os.OpenFile(path, os.O_RDONLY, os.ModeExclusive)] as seen by one
    call: the open file, a reader that stands at its start, or the
    error. *)
Definition FileSystem : Type := string -> result Reader.

(** [ParseFromFile]: opens the file; an open error is returned as it is;
    otherwise the file goes to [Parse] and is closed when the function
    returns (the deferred [sitemapFile.Close()] is the event [EvClose]). *)
Definition ParseFromFile {St : Type} (fs : FileSystem) (rules : Rules)
    (sitemapPath : string) (consumer : EntryConsumer St) (s : St)
  : option (list event * (St * option error)) :=
  match fs sitemapPath with
  | Err err => Some ([], (s, Some err))
  | Ok sitemapFile =>
      match Parse rules sitemapFile consumer s with
      | None => None
      | Some (evs, (_, s', ret)) => Some (evs ++ [EvClose], (s', ret))
      end
  end.

(** [ParseIndexFromFile]: the same around [ParseIndex]. *)
Definition ParseIndexFromFile {St : Type} (fs : FileSystem) (rules : Rules)
    (sitemapPath : string) (consumer : IndexEntryConsumer St) (s : St)
  : option (list event * (St * option error)) :=
  match fs sitemapPath with
  | Err err => Some ([], (s, Some err))
  | Ok sitemapFile =>
      match ParseIndex rules sitemapFile consumer s with
      | None => None
      | Some (evs, (_, s', ret)) => Some (evs ++ [EvClose], (s', ret))
      end
  end.

(** ** Counting what a run did *)

(** How often a body or a file was closed. *)
Definition closes (evs : list event) : nat :=
  length (flat_map (fun ev => match ev with EvClose => [tt] | _ => [] end) evs).

(** The payloads written to the log. *)
Definition logged_bodies (evs : list event) : list (list item) :=
  flat_map (fun ev => match ev with EvLogBody body => [body] | _ => [] end) evs.

Definition is_answered (w : World) (cr : Client * Request) : bool :=
  match client_Do w (fst cr) (snd cr) with Ok _ => true | Err _ => false end.

(** How many of the requests [rs] the world answers with a response. *)
Definition answered (w : World) (rs : list (Client * Request)) : nat :=
  length (filter (is_answered w) rs).

(** The events of the token walk: token reads and consumer calls. *)
Definition is_walk_event (ev : event) : Prop :=
  match ev with
  | EvToken _ | EvConsume _ _ | EvConsumeIndex _ _ => True
  | _ => False
  end.

(** The proxied client of [parseWithProxy] and the direct client of
    [parseWithoutProxy], as the source builds them. *)
Definition proxied_client (proxyURL : URL) : Client :=
  mkClient (mkTransport (Some proxyURL) (10 * Second)%Z true) (20 * Second)%Z.

Definition direct_client : Client :=
  mkClient (mkTransport None (10 * Second)%Z true) (20 * Second)%Z.

(** A world where the site URL parses and no proxy URL does. *)
Definition no_proxy_parses : World :=
  mkWorld 0 (fun _ _ => 0)
    (fun u => if String.eqb u sample_site then Ok (mkURL u)
              else Err (urlError "parse" u (errorString "invalid port")))
    (fun _ _ => Ok (stream_of two_pages)).

(** A world where proxy URLs parse and the site URL does not. *)
Definition bad_site_url : World :=
  mkWorld 0 (fun _ _ => 0)
    (fun u => if String.eqb u sample_site
              then Err (urlError "parse" u (errorString "missing protocol scheme"))
              else Ok (mkURL u))
    (fun _ _ => Ok (stream_of two_pages)).

(** A directory with the one file [sitemap.xml], which holds [doc]. *)
Definition one_file (doc : list Token) : FileSystem :=
  fun path =>
    if String.eqb path "sitemap.xml" then Ok (stream_of doc)
    else Err (errorString "open: no such file or directory").

(** ** Predicates on walks *)

Definition is_token_event (ev : event) : Prop :=
  match ev with EvToken _ => True | _ => False end.

(** A handler that only moves forward in the stream. *)
Definition forward_only {St : Type} (parser : elementParser St) : Prop :=
  forall d se s, length (fst (fst (snd (parser d se s)))) <= length d.

(** A handler calls the consumer at most once, as its last action, and
    returns what the consumer returned. *)
Definition reports_last {St : Type} (parser : elementParser St) : Prop :=
  forall d se s,
    consumer_calls (fst (parser d se s)) = [] \/
    exists toks entry,
      fst (parser d se s) = toks ++ [EvConsume entry (snd (snd (parser d se s)))] /\
      consumer_calls toks = [].

(** No consumer call in [evs] returned an error. *)
Definition quiet (evs : list event) : Prop :=
  Forall (fun call => snd call = None) (consumer_calls evs).

(** The shape of a walk: either no consumer call failed, or the failed
    call is the last event and its error is the result. *)
Definition stops_at_failure (evs : list event) (res : option error) : Prop :=
  quiet evs \/
  exists pre entry e,
    evs = pre ++ [EvConsume entry (Some e)] /\ quiet pre /\ res = Some e.

Definition valid_record (ev : event) : Prop :=
  match ev with
  | EvConsume e _ =>
      GetLocation e <> "" /\ (0 <= GetPriority e)%Q /\ (GetPriority e <= 1)%Q
  | EvConsumeIndex e _ => IndexGetLocation e <> ""
  | _ => True
  end.

(** * Properties *)

(** ** Reading the whole stream *)

Lemma ReadAll_data (r : Reader) :
  forallb is_data r = true -> ReadAll r = (r, None, []).
Proof.
  induction r as [|i r IH]; simpl; [reflexivity|].
  intros H. apply andb_prop in H. destruct H as [Hi Hr].
  destruct i; try discriminate; rewrite (IH Hr); reflexivity.
Qed.

Lemma ReadAll_stops_at_failure (pre rest : Reader) (e : error) :
  forallb is_data pre = true ->
  ReadAll (pre ++ Fails e :: rest) = (pre, if is_EOF e then None else Some e, rest).
Proof.
  induction pre as [|i pre IH]; simpl; [reflexivity|].
  intros H. apply andb_prop in H. destruct H as [Hi Hr].
  destruct i; try discriminate; rewrite (IH Hr); reflexivity.
Qed.

Lemma stream_of_data (doc : list Token) : forallb is_data (stream_of doc) = true.
Proof. induction doc; simpl; auto. Qed.

(** ** The decoder never gives items back *)

Lemma DecodeElement_remainder_length (d : Reader) :
  forall depth cur acc,
    length (fst (snd (DecodeElement d depth cur acc))) <= length d.
Proof.
  induction d as [|i d IH]; intros depth cur acc; simpl; [lia|].
  destruct i as [t|msg|e]; simpl; try lia.
  destruct t; try (specialize (IH depth cur acc); lia).
  - destruct depth; [specialize (IH 1 (Some (name, "")) acc)|specialize (IH (S (S depth)) cur acc)]; lia.
  - destruct depth as [|[|k]]; simpl; try lia.
    + match goal with |- context [DecodeElement d 0 None ?a] => specialize (IH 0 None a) end; lia.
    + specialize (IH (S k) cur acc); lia.
  - destruct depth as [|[|k]]; try (match goal with |- context [DecodeElement d ?x ?y ?z] => specialize (IH x y z) end; lia).
    destruct cur as [[n t0]|];
      match goal with |- context [DecodeElement d ?x ?y ?z] => specialize (IH x y z) end; lia.
Qed.

Lemma entryParser_forward_only {St : Type} (rules : Rules) (consumer : EntryConsumer St) :
  forward_only (entryParser rules consumer).
Proof.
  intros d se s. unfold entryParser.
  destruct (String.eqb se "url"); [|simpl; lia].
  pose proof (DecodeElement_remainder_length d 0 None []) as H.
  destruct (DecodeElement d 0 None []) as [evs [d' decoded]]. simpl in H.
  destruct decoded as [kids|e]; [|simpl; lia].
  destruct (materializeEntry rules kids) as [entry|e]; [|simpl; lia].
  destruct (consumer s entry) as [s' ret]. simpl; lia.
Qed.

Lemma indexEntryParser_forward_only {St : Type} (rules : Rules)
    (consumer : IndexEntryConsumer St) :
  forward_only (indexEntryParser rules consumer).
Proof.
  intros d se s. unfold indexEntryParser.
  destruct (String.eqb se "sitemap"); [|simpl; lia].
  pose proof (DecodeElement_remainder_length d 0 None []) as H.
  destruct (DecodeElement d 0 None []) as [evs [d' decoded]]. simpl in H.
  destruct decoded as [kids|e]; [|simpl; lia].
  destruct (materializeIndexEntry rules kids) as [entry|e]; [|simpl; lia].
  destruct (consumer s entry) as [s' ret]. simpl; lia.
Qed.

(** ** The walk terminates *)

Lemma parseLoop_fuel_enough {St : Type} (parser : elementParser St) :
  forward_only parser ->
  forall fuel d s, length d < fuel -> exists w, parseLoop_fuel fuel d parser s = Some w.
Proof.
  intros Hfw. induction fuel as [|fuel IH]; intros d s Hlen; [lia|].
  simpl. destruct d as [|i d]; simpl; [eauto|].
  destruct i as [t|msg|e]; simpl; eauto.
  simpl in Hlen.
  destruct t; try (destruct (IH d s ltac:(lia)) as [w Hw]; rewrite Hw; simpl; eauto).
  pose proof (Hfw d name s) as Hd.
  destruct (parser d name s) as [evs [[d2 s2] perr]]. simpl in Hd.
  destruct perr; eauto.
  destruct (IH d2 s2 ltac:(lia)) as [w Hw]. rewrite Hw. simpl; eauto.
Qed.

(** More fuel does not change a finished walk. *)
Lemma parseLoop_fuel_mono {St : Type} (parser : elementParser St) :
  forall fuel fuel' d s w,
    parseLoop_fuel fuel d parser s = Some w -> fuel <= fuel' ->
    parseLoop_fuel fuel' d parser s = Some w.
Proof.
  induction fuel as [|fuel IH]; intros fuel' d s w H Hle; [discriminate|].
  destruct fuel' as [|fuel']; [lia|].
  simpl in *. destruct (NextToken d) as [t d1].
  destruct t as [t|e]; [|assumption].
  destruct t;
    try (destruct (parseLoop_fuel fuel d1 parser s) as [w0|] eqn:E; [|discriminate];
         rewrite (IH fuel' d1 s w0 E ltac:(lia)); assumption).
  destruct (parser d1 name s) as [evs [[d2 s2] perr]].
  destruct perr; [assumption|].
  destruct (parseLoop_fuel fuel d2 parser s2) as [w0|] eqn:E; [|discriminate].
  rewrite (IH fuel' d2 s2 w0 E ltac:(lia)). assumption.
Qed.

Lemma parseLoop_total {St : Type} (parser : elementParser St) (d : Reader) (s : St) :
  forward_only parser -> exists w, parseLoop d parser s = Some w.
Proof. intros H. apply parseLoop_fuel_enough; [assumption|lia]. Qed.

(** [Parse] returns on every stream and for every consumer. *)
Lemma Parse_total {St : Type} (rules : Rules) (reader : Reader)
    (consumer : EntryConsumer St) (s : St) :
  exists w, Parse rules reader consumer s = Some w.
Proof.
  unfold Parse. destruct (ReadAll reader) as [[body err] reader'].
  destruct (parseLoop_total (entryParser rules consumer) reader' s
              (entryParser_forward_only rules consumer)) as [w Hw].
  rewrite Hw. simpl. eauto.
Qed.

(** [ParseIndex] returns on every stream and for every consumer. *)
Lemma ParseIndex_total {St : Type} (rules : Rules) (reader : Reader)
    (consumer : IndexEntryConsumer St) (s : St) :
  exists w, ParseIndex rules reader consumer s = Some w.
Proof.
  apply parseLoop_total, indexEntryParser_forward_only.
Qed.

(** ** What the walk emits *)

Lemma DecodeElement_emits_tokens (d : Reader) :
  forall depth cur acc, Forall is_token_event (fst (DecodeElement d depth cur acc)).
Proof.
  induction d as [|i d IH]; intros depth cur acc; simpl.
  - repeat constructor.
  - destruct i as [t|msg|e]; simpl; try (repeat constructor).
    destruct t; try apply IH.
    + destruct depth; apply IH.
    + destruct depth as [|[|k]]; simpl; [constructor|apply IH|apply IH].
    + destruct depth as [|[|k]]; try apply IH. destruct cur as [[n t0]|]; apply IH.
Qed.

Lemma consumer_calls_app (a b : list event) :
  consumer_calls (a ++ b) = consumer_calls a ++ consumer_calls b.
Proof. apply flat_map_app. Qed.

Lemma index_consumer_calls_app (a b : list event) :
  index_consumer_calls (a ++ b) = index_consumer_calls a ++ index_consumer_calls b.
Proof. apply flat_map_app. Qed.

Lemma tokens_no_consumer_calls (evs : list event) :
  Forall is_token_event evs -> consumer_calls evs = [].
Proof.
  induction 1 as [|ev evs Hev _ IH]; [reflexivity|].
  destruct ev; simpl in *; try contradiction. exact IH.
Qed.

Lemma tokens_no_index_consumer_calls (evs : list event) :
  Forall is_token_event evs -> index_consumer_calls evs = [].
Proof.
  induction 1 as [|ev evs Hev _ IH]; [reflexivity|].
  destruct ev; simpl in *; try contradiction. exact IH.
Qed.

Lemma entryParser_reports_last {St : Type} (rules : Rules) (consumer : EntryConsumer St) :
  reports_last (entryParser rules consumer).
Proof.
  intros d se s. unfold entryParser.
  destruct (String.eqb se "url"); [|left; reflexivity].
  pose proof (DecodeElement_emits_tokens d 0 None []) as Htok.
  destruct (DecodeElement d 0 None []) as [evs [d' decoded]]. simpl in Htok.
  apply tokens_no_consumer_calls in Htok.
  destruct decoded as [kids|e]; [|left; exact Htok].
  destruct (materializeEntry rules kids) as [entry|e]; [|left; exact Htok].
  destruct (consumer s entry) as [s' ret]. right. exists evs, entry. simpl. auto.
Qed.

Lemma quiet_app (a b : list event) : quiet a -> quiet b -> quiet (a ++ b).
Proof.
  unfold quiet. rewrite consumer_calls_app. intros Ha Hb.
  apply Forall_app; split; assumption.
Qed.

Lemma stops_at_failure_after (a evs : list event) (res : option error) :
  quiet a -> stops_at_failure evs res -> stops_at_failure (a ++ evs) res.
Proof.
  intros Ha [Hq|(pre & entry & e & -> & Hq & ->)].
  - left. apply quiet_app; assumption.
  - right. exists (a ++ pre), entry, e. rewrite app_assoc.
    repeat split. apply quiet_app; assumption.
Qed.

Lemma parseLoop_fuel_stops_at_failure {St : Type} (parser : elementParser St) :
  reports_last parser ->
  forall fuel d s evs d' s' res,
    parseLoop_fuel fuel d parser s = Some (evs, (d', s', res)) ->
    stops_at_failure evs res.
Proof.
  intros Hp. induction fuel as [|fuel IH]; intros d s evs d' s' res H; [discriminate|].
  simpl in H. destruct (NextToken d) as [t d1].
  destruct t as [t|e].
  - destruct t;
      try (destruct (parseLoop_fuel fuel d1 parser s) as [[evs0 [[d0 s0] res0]]|] eqn:E;
           [|discriminate]; simpl in H; injection H as <- <- <- <-;
           match goal with
           | |- stops_at_failure (?ev :: _) _ => apply (stops_at_failure_after [ev])
           end; [unfold quiet; simpl; constructor | eapply IH; eassumption]).
    specialize (Hp d1 name s).
    destruct (parser d1 name s) as [pevs [[d2 s2] perr]]. simpl in Hp.
    destruct perr as [e|].
    + injection H as <- <- <- <-.
      destruct Hp as [Hnone|(toks & entry & -> & Hnone)].
      * left. unfold quiet. simpl. rewrite Hnone. constructor.
      * right. exists (EvToken (Ok (StartElement name)) :: toks), entry, e.
        repeat split. unfold quiet. simpl. rewrite Hnone. constructor.
    + destruct (parseLoop_fuel fuel d2 parser s2) as [[evs0 [[d0 s0] res0]]|] eqn:E;
        [|discriminate].
      simpl in H. injection H as <- <- <- <-.
      apply (stops_at_failure_after (EvToken (Ok (StartElement name)) :: pevs)).
      * unfold quiet. simpl.
        destruct Hp as [Hnone|(toks & entry & -> & Hnone)].
        -- rewrite Hnone. constructor.
        -- rewrite consumer_calls_app, Hnone. simpl. repeat constructor.
      * eapply IH; eassumption.
  - injection H as <- <- <- <-. left. constructor.
Qed.

Lemma stops_at_failure_calls (evs : list event) (res : option error)
    (k : nat) (entry : Entry) (e : error) :
  stops_at_failure evs res ->
  nth_error (consumer_calls evs) k = Some (entry, Some e) ->
  length (consumer_calls evs) = S k /\ res = Some e /\
  exists pre, evs = pre ++ [EvConsume entry (Some e)].
Proof.
  intros [Hq|(pre & entry' & e' & -> & Hq & ->)] Hk.
  - exfalso. apply nth_error_In in Hk. unfold quiet in Hq.
    rewrite Forall_forall in Hq. specialize (Hq _ Hk). discriminate.
  - rewrite consumer_calls_app in *. simpl in *. unfold quiet in Hq.
    destruct (Nat.lt_ge_cases k (length (consumer_calls pre))) as [Hlt|Hge].
    + exfalso. rewrite nth_error_app1 in Hk by assumption.
      apply nth_error_In in Hk. rewrite Forall_forall in Hq.
      specialize (Hq _ Hk). discriminate.
    + rewrite nth_error_app2 in Hk by assumption.
      destruct (k - length (consumer_calls pre)) as [|j] eqn:Ej.
      * simpl in Hk. injection Hk as <- <-.
        rewrite length_app. simpl. repeat split; [lia|]. eauto.
      * simpl in Hk. destruct j; discriminate.
Qed.

(** ** Records that reach the consumer *)

Lemma in_unit_interval_spec (q : Q) :
  in_unit_interval q = true -> (0 <= q)%Q /\ (q <= 1)%Q.
Proof.
  unfold in_unit_interval. intros H. apply andb_prop in H. destruct H as [H0 H1].
  split; apply Qle_bool_iff; assumption.
Qed.

Lemma clamp_in_range (q : Q) : (0 <= clamp q)%Q /\ (clamp q <= 1)%Q.
Proof.
  unfold clamp.
  destruct (Qle_bool q 0) eqn:E0; [split; discriminate|].
  destruct (Qle_bool 1 q) eqn:E1; [split; discriminate|].
  split; apply Qlt_le_weak, Qnot_le_lt; intros H; apply Qle_bool_iff in H; congruence.
Qed.

Lemma materializeEntry_valid (rules : Rules) (kids : Children) (e : Entry) :
  materializeEntry rules kids = Ok e ->
  GetLocation e <> "" /\ (0 <= GetPriority e)%Q /\ (GetPriority e <= 1)%Q.
Proof.
  unfold materializeEntry.
  destruct (child "loc" kids) as [[|c loc]|]; try discriminate.
  destruct (match child "changefreq" kids with
            | Some f => _
            | None => _
            end) as [f|ef]; [|discriminate].
  destruct (child "priority" kids) as [t|].
  - destruct (parse_decimal t) as [q|]; [|discriminate].
    destruct (in_unit_interval q) eqn:Eq.
    + intros H. injection H as <-. simpl. split; [discriminate|].
      apply in_unit_interval_spec; assumption.
    + destruct (priority_policy rules); [|discriminate].
      intros H. injection H as <-. simpl. split; [discriminate|].
      apply clamp_in_range.
  - intros H. injection H as <-. simpl. repeat split; discriminate.
Qed.

Lemma materializeIndexEntry_valid (rules : Rules) (kids : Children) (e : IndexEntry) :
  materializeIndexEntry rules kids = Ok e -> IndexGetLocation e <> "".
Proof.
  unfold materializeIndexEntry.
  destruct (child "loc" kids) as [[|c loc]|]; try discriminate.
  intros H. injection H as <-. simpl. discriminate.
Qed.

Lemma tokens_valid (evs : list event) :
  Forall is_token_event evs -> Forall valid_record evs.
Proof.
  apply Forall_impl. intros ev H. destruct ev; simpl in *; tauto.
Qed.

Lemma entryParser_emits_valid {St : Type} (rules : Rules) (consumer : EntryConsumer St)
    (d : Reader) (se : string) (s : St) :
  Forall valid_record (fst (entryParser rules consumer d se s)).
Proof.
  unfold entryParser. destruct (String.eqb se "url"); [|constructor].
  pose proof (DecodeElement_emits_tokens d 0 None []) as Htok.
  destruct (DecodeElement d 0 None []) as [evs [d' decoded]]. simpl in Htok.
  apply tokens_valid in Htok.
  destruct decoded as [kids|e]; [|exact Htok].
  destruct (materializeEntry rules kids) as [entry|e] eqn:E; [|exact Htok].
  destruct (consumer s entry) as [s' ret]. simpl.
  apply Forall_app. split; [exact Htok|].
  constructor; [|constructor]. exact (materializeEntry_valid rules kids entry E).
Qed.

Lemma indexEntryParser_emits_valid {St : Type} (rules : Rules)
    (consumer : IndexEntryConsumer St) (d : Reader) (se : string) (s : St) :
  Forall valid_record (fst (indexEntryParser rules consumer d se s)).
Proof.
  unfold indexEntryParser. destruct (String.eqb se "sitemap"); [|constructor].
  pose proof (DecodeElement_emits_tokens d 0 None []) as Htok.
  destruct (DecodeElement d 0 None []) as [evs [d' decoded]]. simpl in Htok.
  apply tokens_valid in Htok.
  destruct decoded as [kids|e]; [|exact Htok].
  destruct (materializeIndexEntry rules kids) as [entry|e] eqn:E; [|exact Htok].
  destruct (consumer s entry) as [s' ret]. simpl.
  apply Forall_app. split; [exact Htok|].
  constructor; [|constructor]. exact (materializeIndexEntry_valid rules kids entry E).
Qed.

(** An invariant of the handler's events, true of token reads, is an
    invariant of the walk. *)
Lemma parseLoop_fuel_Forall {St : Type} (P : event -> Prop) (parser : elementParser St) :
  (forall t, P (EvToken t)) ->
  (forall d se s, Forall P (fst (parser d se s))) ->
  forall fuel d s w, parseLoop_fuel fuel d parser s = Some w -> Forall P (fst w).
Proof.
  intros Htok Hp. induction fuel as [|fuel IH]; intros d s w H; [discriminate|].
  simpl in H. destruct (NextToken d) as [t d1].
  destruct t as [t|e].
  - destruct t;
      try (destruct (parseLoop_fuel fuel d1 parser s) as [w0|] eqn:E; [|discriminate];
           simpl in H; injection H as <-; simpl; constructor;
           [apply Htok | eapply IH; eassumption]).
    specialize (Hp d1 name s).
    destruct (parser d1 name s) as [pevs [[d2 s2] perr]]. simpl in Hp.
    destruct perr as [e|].
    + injection H as <-. simpl. constructor; [apply Htok|exact Hp].
    + destruct (parseLoop_fuel fuel d2 parser s2) as [w0|] eqn:E; [|discriminate].
      simpl in H. injection H as <-. simpl. constructor; [apply Htok|].
      apply Forall_app. split; [exact Hp|eapply IH; eassumption].
  - injection H as <-. simpl. constructor; [apply Htok|constructor].
Qed.

Lemma Parse_emits_valid {St : Type} (rules : Rules) (reader : Reader)
    (consumer : EntryConsumer St) (s : St) (w : Walk St) :
  Parse rules reader consumer s = Some w -> Forall valid_record (fst w).
Proof.
  unfold Parse. destruct (ReadAll reader) as [[body err] reader'].
  destruct (parseLoop reader' (entryParser rules consumer) s) as [w0|] eqn:E;
    [|discriminate].
  simpl. intros H. injection H as <-. simpl.
  constructor; [exact I|]. apply Forall_app. split.
  - destruct err; repeat constructor.
  - eapply (parseLoop_fuel_Forall valid_record); [| |exact E].
    + intros t; exact I.
    + intros; apply entryParser_emits_valid.
Qed.

Lemma ParseIndex_emits_valid {St : Type} (rules : Rules) (reader : Reader)
    (consumer : IndexEntryConsumer St) (s : St) (w : Walk St) :
  ParseIndex rules reader consumer s = Some w -> Forall valid_record (fst w).
Proof.
  unfold ParseIndex, parseLoop. intros E.
  eapply (parseLoop_fuel_Forall valid_record); [| |exact E].
  - intros t; exact I.
  - intros; apply indexEntryParser_emits_valid.
Qed.

(** ** The walk over a well-formed document *)

Lemma DecodeElement_element_body (name : string) (kids : Children) (rest : Reader) :
  forall acc,
    DecodeElement (stream_of (element_body name kids) ++ rest) 0 None acc =
    (token_events (element_body name kids), (rest, Ok (rev acc ++ kids))).
Proof.
  induction kids as [|[k v] kids IH]; intros acc.
  - simpl. rewrite app_nil_r. reflexivity.
  - unfold element_body, stream_of, token_events in *. simpl.
    rewrite (IH ((k, v) :: acc)). simpl. rewrite <- app_assoc. reflexivity.
Qed.

Lemma option_map_emits {A : Type} (a b : list event) (x : option (list event * A)) :
  option_map (emits a) (option_map (emits b) x) = option_map (emits (a ++ b)) x.
Proof.
  destruct x as [[evs y]|]; [|reflexivity].
  unfold emits. simpl. rewrite app_assoc. reflexivity.
Qed.

Lemma record_elements_length (name : string) (records : list Children) :
  length records <= length (flat_map (record_element name) records).
Proof.
  induction records as [|kids records IH]; simpl; [lia|].
  rewrite length_app. lia.
Qed.

Section WalkOverDocument.

Context {St : Type} (parser : elementParser St) (root name : string).
Context (ok : Children -> bool) (handle : St -> Children -> list event * St).

(** The handler ignores the root element. *)
Hypothesis parser_root : forall d s, parser d root s = ([], (d, s, None)).

(** On a record element that passes [ok] the handler reads exactly the
    element, does what [handle] says and returns nil. *)
Hypothesis parser_record :
  forall kids rest s,
    ok kids = true ->
    parser (stream_of (element_body name kids) ++ rest) name s =
    (fst (handle s kids), (rest, snd (handle s kids), None)).

Lemma parseLoop_fuel_records (records : list Children) :
  forall fuel tail s,
    forallb ok records = true ->
    parseLoop_fuel (fuel + length records)
      (stream_of (flat_map (record_element name) records) ++ tail) parser s =
    option_map (emits (fst (deliver name handle s records)))
      (parseLoop_fuel fuel tail parser (snd (deliver name handle s records))).
Proof.
  induction records as [|kids records IH]; intros fuel tail s Hok.
  - simpl. rewrite Nat.add_0_r.
    destruct (parseLoop_fuel fuel tail parser s) as [[evs y]|]; reflexivity.
  - simpl in Hok. apply andb_prop in Hok. destruct Hok as [Hkids Hrest].
    cbn [length flat_map]. rewrite Nat.add_succ_r.
    unfold stream_of in *. rewrite map_app. unfold record_element at 1.
    cbn [map app parseLoop_fuel NextToken]. rewrite <- app_assoc.
    rewrite (parser_record kids _ s Hkids).
    cbn [deliver]. destruct (handle s kids) as [evs s1]. cbn [fst snd].
    rewrite (IH fuel tail s1 Hrest), option_map_emits.
    destruct (deliver name handle s1 records) as [evs' s2]. reflexivity.
Qed.

Lemma parseLoop_document (records : list Children) (s : St) :
  forallb ok records = true ->
  parseLoop (stream_of (document root name records)) parser s =
  Some (EvToken (Ok (StartElement root))
          :: fst (deliver name handle s records)
          ++ [EvToken (Ok (EndElement root)); EvToken (Err io_EOF)],
        ([], snd (deliver name handle s records), None)).
Proof.
  intros Hok. unfold parseLoop.
  apply (parseLoop_fuel_mono parser (S (2 + length records))).
  - unfold document, stream_of. cbn [map parseLoop_fuel NextToken].
    rewrite parser_root. rewrite map_app.
    pose proof (parseLoop_fuel_records records 2 [Bytes (EndElement root)] s Hok) as H.
    unfold stream_of in H. cbn [map]. rewrite H.
    destruct (deliver name handle s records) as [evs s']. reflexivity.
  - unfold document, stream_of. cbn [map length]. rewrite length_map, length_app.
    pose proof (record_elements_length name records). simpl. lia.
Qed.

End WalkOverDocument.

Lemma token_events_are_tokens (doc : list Token) : Forall is_token_event (token_events doc).
Proof. induction doc; simpl; constructor; simpl; auto. Qed.

Lemma wellformed_url_materializes (rules : Rules) (kids : Children) :
  wellformed_url kids = true -> exists entry, materializeEntry rules kids = Ok entry.
Proof.
  unfold wellformed_url, materializeEntry.
  destruct (child "loc" kids) as [[|c loc]|]; try discriminate.
  intros H. apply andb_prop in H. destruct H as [Hf Hp].
  destruct (child "changefreq" kids) as [f|]; [rewrite Hf|];
    (destruct (child "priority" kids) as [t|];
     [destruct (parse_decimal t) as [q|]; [rewrite Hp|discriminate]|]); eauto.
Qed.

Lemma wellformed_sitemap_materializes (rules : Rules) (kids : Children) :
  wellformed_sitemap kids = true -> exists entry, materializeIndexEntry rules kids = Ok entry.
Proof.
  unfold wellformed_sitemap, materializeIndexEntry.
  destruct (child "loc" kids) as [[|c loc]|]; try discriminate. eauto.
Qed.

Lemma entryParser_record {St : Type} (rules : Rules) (consumer : EntryConsumer St) :
  (forall s e, snd (consumer s e) = None) ->
  forall kids rest s,
    wellformed_url kids = true ->
    entryParser rules consumer (stream_of (element_body "url" kids) ++ rest) "url" s =
    (fst (handle_entry rules consumer s kids),
     (rest, snd (handle_entry rules consumer s kids), None)).
Proof.
  intros Hnil kids rest s Hwf.
  unfold entryParser, handle_entry. cbn [String.eqb Ascii.eqb Bool.eqb].
  rewrite DecodeElement_element_body. cbn [rev app].
  destruct (wellformed_url_materializes rules kids Hwf) as [entry ->].
  specialize (Hnil s entry). destruct (consumer s entry) as [s' ret].
  simpl in Hnil. subst ret. reflexivity.
Qed.

Lemma indexEntryParser_record {St : Type} (rules : Rules) (consumer : IndexEntryConsumer St) :
  (forall s e, snd (consumer s e) = None) ->
  forall kids rest s,
    wellformed_sitemap kids = true ->
    indexEntryParser rules consumer (stream_of (element_body "sitemap" kids) ++ rest)
      "sitemap" s =
    (fst (handle_index_entry rules consumer s kids),
     (rest, snd (handle_index_entry rules consumer s kids), None)).
Proof.
  intros Hnil kids rest s Hwf.
  unfold indexEntryParser, handle_index_entry. cbn [String.eqb Ascii.eqb Bool.eqb].
  rewrite DecodeElement_element_body. cbn [rev app].
  destruct (wellformed_sitemap_materializes rules kids Hwf) as [entry ->].
  specialize (Hnil s entry). destruct (consumer s entry) as [s' ret].
  simpl in Hnil. subst ret. reflexivity.
Qed.

Lemma deliver_entries {St : Type} (rules : Rules) (consumer : EntryConsumer St)
    (records : list Children) :
  forall s,
    forallb wellformed_url records = true ->
    map (fun call => Ok (fst call))
      (consumer_calls (fst (deliver "url" (handle_entry rules consumer) s records))) =
    map (materializeEntry rules) records.
Proof.
  induction records as [|kids records IH]; intros s Hwf; [reflexivity|].
  simpl in Hwf. apply andb_prop in Hwf. destruct Hwf as [Hkids Hrest].
  cbn [deliver map]. unfold handle_entry at 1.
  destruct (wellformed_url_materializes rules kids Hkids) as [entry Hentry].
  rewrite Hentry. destruct (consumer s entry) as [s' ret].
  specialize (IH s' Hrest).
  destruct (deliver "url" (handle_entry rules consumer) s' records) as [evs' s2].
  cbn [fst] in *.
  change (consumer_calls (EvToken (Ok (StartElement "url")) :: ?l)) with (consumer_calls l).
  rewrite !consumer_calls_app.
  rewrite (tokens_no_consumer_calls _ (token_events_are_tokens _)).
  cbn [consumer_calls flat_map app map fst]. rewrite IH. reflexivity.
Qed.

Lemma deliver_index_entries {St : Type} (rules : Rules) (consumer : IndexEntryConsumer St)
    (records : list Children) :
  forall s,
    forallb wellformed_sitemap records = true ->
    map (fun call => Ok (fst call))
      (index_consumer_calls
         (fst (deliver "sitemap" (handle_index_entry rules consumer) s records))) =
    map (materializeIndexEntry rules) records.
Proof.
  induction records as [|kids records IH]; intros s Hwf; [reflexivity|].
  simpl in Hwf. apply andb_prop in Hwf. destruct Hwf as [Hkids Hrest].
  cbn [deliver map]. unfold handle_index_entry at 1.
  destruct (wellformed_sitemap_materializes rules kids Hkids) as [entry Hentry].
  rewrite Hentry. destruct (consumer s entry) as [s' ret].
  specialize (IH s' Hrest).
  destruct (deliver "sitemap" (handle_index_entry rules consumer) s' records) as [evs' s2].
  cbn [fst] in *.
  change (index_consumer_calls (EvToken (Ok (StartElement "sitemap")) :: ?l))
    with (index_consumer_calls l).
  rewrite !index_consumer_calls_app.
  rewrite (tokens_no_index_consumer_calls _ (token_events_are_tokens _)).
  cbn [index_consumer_calls flat_map app map fst]. rewrite IH. reflexivity.
Qed.

(** The token walk with the page-entry materializer, run on the stream of
    a well-formed page sitemap with a consumer that never fails, returns
    nil with the stream used up, after one consumer call per url element,
    in document order, each with the materialized record. *)
Lemma walk_delivers_all {St : Type} (rules : Rules) (consumer : EntryConsumer St)
    (records : list Children) (s : St) :
  forallb wellformed_url records = true ->
  (forall s e, snd (consumer s e) = None) ->
  exists evs s',
    parseLoop (stream_of (urlset records)) (entryParser rules consumer) s =
      Some (evs, ([], s', None)) /\
    map (fun call => Ok (fst call)) (consumer_calls evs) =
      map (materializeEntry rules) records /\
    length (consumer_calls evs) = length records.
Proof.
  intros Hwf Hnil.
  pose proof (parseLoop_document (entryParser rules consumer) "urlset" "url"
                wellformed_url (handle_entry rules consumer)
                (fun d s => eq_refl) (entryParser_record rules consumer Hnil)
                records s Hwf) as Hrun.
  pose proof (deliver_entries rules consumer records s Hwf) as Hcalls.
  unfold urlset. rewrite Hrun.
  destruct (deliver "url" (handle_entry rules consumer) s records) as [evs s'].
  cbn [fst snd] in *.
  eexists _, _. split; [reflexivity|].
  assert (Hsame : consumer_calls
                    (EvToken (Ok (StartElement "urlset"))
                       :: evs ++ [EvToken (Ok (EndElement "urlset")); EvToken (Err io_EOF)])
                  = consumer_calls evs).
  { change (consumer_calls (EvToken (Ok (StartElement "urlset")) :: ?l))
      with (consumer_calls l).
    rewrite consumer_calls_app. simpl. apply app_nil_r. }
  rewrite Hsame. split; [exact Hcalls|].
  apply (f_equal (@length _)) in Hcalls. rewrite !length_map in Hcalls. exact Hcalls.
Qed.

(** [ParseIndex], the sibling of [Parse] without the preliminary read,
    run on the stream of a well-formed sitemap index with a consumer that
    never fails, returns nil after one consumer call per sitemap element,
    in document order. *)
Lemma ParseIndex_delivers_all {St : Type} (rules : Rules) (consumer : IndexEntryConsumer St)
    (records : list Children) (s : St) :
  forallb wellformed_sitemap records = true ->
  (forall s e, snd (consumer s e) = None) ->
  exists evs s',
    ParseIndex rules (stream_of (sitemapindex records)) consumer s =
      Some (evs, ([], s', None)) /\
    map (fun call => Ok (fst call)) (index_consumer_calls evs) =
      map (materializeIndexEntry rules) records /\
    length (index_consumer_calls evs) = length records.
Proof.
  intros Hwf Hnil.
  pose proof (parseLoop_document (indexEntryParser rules consumer) "sitemapindex" "sitemap"
                wellformed_sitemap (handle_index_entry rules consumer)
                (fun d s => eq_refl) (indexEntryParser_record rules consumer Hnil)
                records s Hwf) as Hrun.
  pose proof (deliver_index_entries rules consumer records s Hwf) as Hcalls.
  unfold ParseIndex, sitemapindex. rewrite Hrun.
  destruct (deliver "sitemap" (handle_index_entry rules consumer) s records) as [evs s'].
  cbn [fst snd] in *.
  eexists _, _. split; [reflexivity|].
  assert (Hsame : index_consumer_calls
                    (EvToken (Ok (StartElement "sitemapindex"))
                       :: evs ++ [EvToken (Ok (EndElement "sitemapindex"));
                                  EvToken (Err io_EOF)])
                  = index_consumer_calls evs).
  { change (index_consumer_calls (EvToken (Ok (StartElement "sitemapindex")) :: ?l))
      with (index_consumer_calls l).
    rewrite index_consumer_calls_app. simpl. apply app_nil_r. }
  rewrite Hsame. split; [exact Hcalls|].
  apply (f_equal (@length _)) in Hcalls. rewrite !length_map in Hcalls. exact Hcalls.
Qed.

(** ** The preliminary full read of [Parse] *)

(** On a stream that delivers its data without a read error, [Parse]
    hands the token walk a reader that [ReadAll] has already drained. *)
Lemma Parse_after_full_read {St : Type} (rules : Rules) (reader : Reader)
    (consumer : EntryConsumer St) (s : St) :
  forallb is_data reader = true ->
  Parse rules reader consumer s =
  Some ([EvReadAll reader None; EvLogBody reader; EvToken (Err io_EOF)], ([], s, None)).
Proof.
  intros H. unfold Parse. rewrite (ReadAll_data reader H). reflexivity.
Qed.

(** C1 (the code at a well-formed document): the page sitemap
    [two_pages] holds two url elements; [Parse] on the stream of that
    document returns nil after zero consumer calls, with the consumer's
    counter untouched, while the token walk alone on the same stream
    calls the consumer twice. *)
Theorem Parse_two_pages_calls_nobody :
  option_map (fun w => (consumer_calls (fst w), snd w))
    (Parse sample_rules (stream_of two_pages) counting 0)
  = Some ([], ([], 0, None)) /\
  option_map (fun w => (map (fun call => GetLocation (fst call)) (consumer_calls (fst w)), snd w))
    (parseLoop (stream_of two_pages) (entryParser sample_rules counting) 0)
  = Some (["https://x/a"; "https://x/b"], ([], 2, None)).
Proof. split; vm_compute; reflexivity. Qed.

(** C2 (the code on a one-shot stream): for every document, the
    preliminary [ReadAll] of [Parse] takes the whole stream, and the one
    token read of the walk that follows finds the end of the stream: the
    walk observes none of the document. *)
Theorem Parse_walk_observes_nothing {St : Type} (rules : Rules) (doc : list Token)
    (consumer : EntryConsumer St) (s : St) :
  Parse rules (stream_of doc) consumer s =
  Some ([EvReadAll (stream_of doc) None; EvLogBody (stream_of doc); EvToken (Err io_EOF)],
        ([], s, None)).
Proof. apply Parse_after_full_read, stream_of_data. Qed.

(** C10: when the preliminary full read of [Parse] fails with [e] after
    the data [pre], nothing is logged and the call continues with the
    token walk on the rest of the reader; what [Parse] returns is what
    that walk returns, whatever [e] was.  In particular, when the stream
    has nothing more to give, [Parse] returns nil. *)
Theorem Parse_discards_read_error {St : Type} (rules : Rules) (pre rest : Reader)
    (e : error) (consumer : EntryConsumer St) (s : St) :
  forallb is_data pre = true ->
  is_EOF e = false ->
  fst (fst (ReadAll (pre ++ Fails e :: rest))) = pre /\
  snd (fst (ReadAll (pre ++ Fails e :: rest))) = Some e /\
  Parse rules (pre ++ Fails e :: rest) consumer s =
    option_map (emits [EvReadAll pre (Some e)])
      (parseLoop rest (entryParser rules consumer) s) /\
  Parse rules (pre ++ [Fails e]) consumer s =
    Some ([EvReadAll pre (Some e); EvToken (Err io_EOF)], ([], s, None)).
Proof.
  intros Hpre He.
  assert (Hread : forall rest0,
             ReadAll (pre ++ Fails e :: rest0) = (pre, Some e, rest0)).
  { intros rest0. rewrite (ReadAll_stops_at_failure pre rest0 e Hpre), He. reflexivity. }
  rewrite Hread. simpl. repeat split.
  - unfold Parse. rewrite Hread. reflexivity.
  - unfold Parse. rewrite Hread. reflexivity.
Qed.

Lemma Parse_discards_read_error_witness :
  Parse sample_rules ([Bytes (StartElement "urlset")] ++ [Fails (netError "i/o timeout" true)])
    counting 0 =
  Some ([EvReadAll [Bytes (StartElement "urlset")] (Some (netError "i/o timeout" true));
         EvToken (Err io_EOF)], ([], 0, None)).
Proof.
  apply (Parse_discards_read_error sample_rules [Bytes (StartElement "urlset")] []
           (netError "i/o timeout" true) counting 0); reflexivity.
Defined.

(** ** A failing consumer stops the walk *)

Lemma Parse_stops_at_failure {St : Type} (rules : Rules) (reader : Reader)
    (consumer : EntryConsumer St) (s : St) (evs : list event) (d' : Reader) (s' : St)
    (res : option error) :
  Parse rules reader consumer s = Some (evs, (d', s', res)) ->
  stops_at_failure evs res.
Proof.
  unfold Parse. destruct (ReadAll reader) as [[body err] reader'].
  destruct (parseLoop reader' (entryParser rules consumer) s)
    as [[evs0 [[d0 s0] res0]]|] eqn:E; [|discriminate].
  simpl. intros H. injection H as <- <- <- <-.
  apply (stops_at_failure_after
           (EvReadAll body err :: match err with None => [EvLogBody body] | Some _ => [] end)).
  - unfold quiet. destruct err; simpl; constructor.
  - eapply parseLoop_fuel_stops_at_failure; [apply entryParser_reports_last|exact E].
Qed.

(** The token walk with the page-entry materializer, on every stream and
    for every consumer: if the consumer returns an error [e] on its call
    number [k+1], there are exactly [k+1] consumer calls, that call is the
    last event of the walk (no token is read after it), and the walk
    returns [e] itself. *)
Lemma walk_stops_at_consumer_error {St : Type} (rules : Rules) (d : Reader)
    (consumer : EntryConsumer St) (s : St) (evs : list event) (d' : Reader) (s' : St)
    (res : option error) (k : nat) (entry : Entry) (e : error) :
  parseLoop d (entryParser rules consumer) s = Some (evs, (d', s', res)) ->
  nth_error (consumer_calls evs) k = Some (entry, Some e) ->
  length (consumer_calls evs) = S k /\
  res = Some e /\
  exists pre, evs = pre ++ [EvConsume entry (Some e)].
Proof.
  intros Hrun Hk. eapply stops_at_failure_calls; [|exact Hk].
  eapply parseLoop_fuel_stops_at_failure; [apply entryParser_reports_last|exact Hrun].
Qed.

(** C6 (the code at a consumer that fails on the third record): the page
    sitemap [ten_pages] holds ten url elements and the consumer returns
    an error on its third call.  [Parse] on the stream of that document
    never calls the consumer and returns nil with the consumer's counter
    at 0, while the token walk alone on the same stream stops after
    exactly three calls, leaves the rest of the stream unread and returns
    the consumer's error. *)
Theorem Parse_never_reaches_the_failing_record :
  option_map (fun w => (consumer_calls (fst w), snd w))
    (Parse sample_rules (stream_of ten_pages) (failing_at 3 (errorString "stop")) 0)
  = Some ([], ([], 0, None)) /\
  option_map (fun w => (map (fun call => (GetLocation (fst call), snd call))
                          (consumer_calls (fst w)),
                        length (fst (fst (snd w))), snd (fst (snd w)), snd (snd w)))
    (parseLoop (stream_of ten_pages)
       (entryParser sample_rules (failing_at 3 (errorString "stop"))) 0)
  = Some ([("https://x/1", None); ("https://x/2", None);
           ("https://x/3", Some (errorString "stop"))],
          36, 3, Some (errorString "stop")).
Proof. split; vm_compute; reflexivity. Qed.

(** ** The default priority *)

Lemma materializeEntry_default_priority (rules : Rules) (kids : Children) (e : Entry) :
  child "priority" kids = None ->
  materializeEntry rules kids = Ok e ->
  GetPriority e = (1 # 2)%Q.
Proof.
  unfold materializeEntry. intros ->.
  destruct (child "loc" kids) as [[|c loc]|]; try discriminate.
  destruct (match child "changefreq" kids with
            | Some f => _
            | None => _
            end) as [f|ef]; [|discriminate].
  intros H. injection H as <-. reflexivity.
Qed.

(** C7: for every url element of the stream whose decoded children hold
    no [priority], the record that the page-entry materializer hands to
    the consumer has priority 1/2. *)
Theorem absent_priority_is_half {St : Type} (rules : Rules) (consumer : EntryConsumer St)
    (d d' : Reader) (s : St) (tevs evs : list event) (kids : Children)
    (after : Reader * St * option error) (e : Entry) (ret : option error) :
  DecodeElement d 0 None [] = (tevs, (d', Ok kids)) ->
  child "priority" kids = None ->
  entryParser rules consumer d "url" s = (evs, after) ->
  In (EvConsume e ret) evs ->
  GetPriority e = (1 # 2)%Q.
Proof.
  intros Hdec Hnone Hrun Hin.
  pose proof (DecodeElement_emits_tokens d 0 None []) as Htok.
  unfold entryParser in Hrun. simpl in Hrun. rewrite Hdec in Hrun, Htok. simpl in Htok.
  destruct (materializeEntry rules kids) as [entry|err] eqn:E.
  - destruct (consumer s entry) as [s' ret']. injection Hrun as <- _.
    apply in_app_or in Hin. destruct Hin as [Hin|[Hin|[]]].
    + rewrite Forall_forall in Htok. destruct (Htok _ Hin).
    + injection Hin as <- _.
      exact (materializeEntry_default_priority rules kids entry Hnone E).
  - injection Hrun as <- _.
    rewrite Forall_forall in Htok. destruct (Htok _ Hin).
Qed.

Lemma absent_priority_is_half_witness :
  In (EvConsume (mkEntry "https://x/a" None "" (1 # 2)%Q) None)
     (fst (entryParser sample_rules counting
             (stream_of (element_body "url" (page "https://x/a"))) "url" 0)) /\
  GetPriority (mkEntry "https://x/a" None "" (1 # 2)%Q) = (1 # 2)%Q.
Proof.
  assert (Hin : In (EvConsume (mkEntry "https://x/a" None "" (1 # 2)%Q) None)
                  (fst (entryParser sample_rules counting
                          (stream_of (element_body "url" (page "https://x/a"))) "url" 0)))
    by (vm_compute; tauto).
  split; [exact Hin|].
  refine (absent_priority_is_half sample_rules counting
            (stream_of (element_body "url" (page "https://x/a"))) []
            0 _ _ (page "https://x/a") _ _ None _ _ _ Hin);
    reflexivity.
Defined.

(** C8: every page entry that [Parse] hands to the consumer has a
    non-empty location and a priority between 0 and 1, and every index
    entry that [ParseIndex] hands to the consumer has a non-empty
    location, under either policy of the field rules. *)
Theorem emitted_records_are_valid {St : Type} (rules : Rules) (reader : Reader) :
  (forall (consumer : EntryConsumer St) (s : St) (w : Walk St) (e : Entry)
          (ret : option error),
      Parse rules reader consumer s = Some w ->
      In (EvConsume e ret) (fst w) ->
      GetLocation e <> "" /\ (0 <= GetPriority e)%Q /\ (GetPriority e <= 1)%Q) /\
  (forall (consumer : IndexEntryConsumer St) (s : St) (w : Walk St) (e : IndexEntry)
          (ret : option error),
      ParseIndex rules reader consumer s = Some w ->
      In (EvConsumeIndex e ret) (fst w) ->
      IndexGetLocation e <> "").
Proof.
  split; intros consumer s w e ret Hrun Hin.
  - apply Parse_emits_valid in Hrun. rewrite Forall_forall in Hrun.
    exact (Hrun _ Hin).
  - apply ParseIndex_emits_valid in Hrun. rewrite Forall_forall in Hrun.
    exact (Hrun _ Hin).
Qed.

Lemma emitted_records_are_valid_witness :
  (GetLocation (mkEntry "https://x/a" None "" (Qmake 8 10)) <> "" /\
   (0 <= GetPriority (mkEntry "https://x/a" None "" (Qmake 8 10)))%Q /\
   (GetPriority (mkEntry "https://x/a" None "" (Qmake 8 10)) <= 1)%Q) /\
  IndexGetLocation (mkIndexEntry "https://x/s1.xml" None) <> "".
Proof.
  split.
  - eapply (proj1 (emitted_records_are_valid sample_rules
                     (Fails (errorString "read failed")
                        :: stream_of (urlset [priced_page "https://x/a" "0.8"])))
              counting 0 _ _ None).
    + vm_compute. reflexivity.
    + vm_compute. tauto.
  - eapply (proj2 (emitted_records_are_valid sample_rules (stream_of two_sitemaps))
              counting_index 0 _ _ None).
    + vm_compute. reflexivity.
    + vm_compute. tauto.
Defined.

(** ** Requests sent by the retrieval layer *)

Lemma requests_app (a b : list event) : requests (a ++ b) = requests a ++ requests b.
Proof. apply flat_map_app. Qed.

Lemma no_request_requests (evs : list event) :
  Forall no_request evs -> requests evs = [].
Proof.
  induction 1 as [|ev evs Hev _ IH]; [reflexivity|].
  destruct ev; simpl in *; try contradiction; exact IH.
Qed.

Lemma tokens_no_request (evs : list event) :
  Forall is_token_event evs -> Forall no_request evs.
Proof.
  apply Forall_impl. intros ev H. destruct ev; simpl in *; tauto.
Qed.

Lemma entryParser_no_request {St : Type} (rules : Rules) (consumer : EntryConsumer St)
    (d : Reader) (se : string) (s : St) :
  Forall no_request (fst (entryParser rules consumer d se s)).
Proof.
  unfold entryParser. destruct (String.eqb se "url"); [|constructor].
  pose proof (DecodeElement_emits_tokens d 0 None []) as Htok.
  destruct (DecodeElement d 0 None []) as [evs [d' decoded]]. simpl in Htok.
  apply tokens_no_request in Htok.
  destruct decoded as [kids|e]; [|exact Htok].
  destruct (materializeEntry rules kids) as [entry|e]; [|exact Htok].
  destruct (consumer s entry) as [s' ret]. simpl.
  apply Forall_app. split; [exact Htok|repeat constructor].
Qed.

Lemma indexEntryParser_no_request {St : Type} (rules : Rules)
    (consumer : IndexEntryConsumer St) (d : Reader) (se : string) (s : St) :
  Forall no_request (fst (indexEntryParser rules consumer d se s)).
Proof.
  unfold indexEntryParser. destruct (String.eqb se "sitemap"); [|constructor].
  pose proof (DecodeElement_emits_tokens d 0 None []) as Htok.
  destruct (DecodeElement d 0 None []) as [evs [d' decoded]]. simpl in Htok.
  apply tokens_no_request in Htok.
  destruct decoded as [kids|e]; [|exact Htok].
  destruct (materializeIndexEntry rules kids) as [entry|e]; [|exact Htok].
  destruct (consumer s entry) as [s' ret]. simpl.
  apply Forall_app. split; [exact Htok|repeat constructor].
Qed.

Lemma Parse_no_requests {St : Type} (rules : Rules) (reader : Reader)
    (consumer : EntryConsumer St) (s : St) (w : Walk St) :
  Parse rules reader consumer s = Some w -> requests (fst w) = [].
Proof.
  unfold Parse. destruct (ReadAll reader) as [[body err] reader'].
  destruct (parseLoop reader' (entryParser rules consumer) s) as [w0|] eqn:E;
    [|discriminate].
  simpl. intros H. injection H as <-. simpl. rewrite requests_app.
  assert (Hw : requests (fst w0) = []).
  { apply no_request_requests.
    eapply (parseLoop_fuel_Forall no_request); [| |exact E].
    - intros t; exact I.
    - intros; apply entryParser_no_request. }
  rewrite Hw. destruct err; reflexivity.
Qed.

Lemma ParseIndex_no_requests {St : Type} (rules : Rules) (reader : Reader)
    (consumer : IndexEntryConsumer St) (s : St) (w : Walk St) :
  ParseIndex rules reader consumer s = Some w -> requests (fst w) = [].
Proof.
  unfold ParseIndex, parseLoop. intros E. apply no_request_requests.
  eapply (parseLoop_fuel_Forall no_request); [| |exact E].
  - intros t; exact I.
  - intros; apply indexEntryParser_no_request.
Qed.

(** [makeRequest] sends at most one request, through the client it was
    given. *)
Lemma makeRequest_requests {St : Type} (w : World) (rules : Rules) (client : Client)
    (sitemapURL userAgent : string) (consumer : EntryConsumer St) (s : St)
    (evs : list event) (after : St * option error) :
  makeRequest w rules client sitemapURL userAgent consumer s = Some (evs, after) ->
  requests evs =
  match http_NewRequest w "GET" sitemapURL with
  | Ok req0 => [(client, Header_Set req0 "User-Agent" userAgent)]
  | Err _ => []
  end.
Proof.
  unfold makeRequest. destruct (http_NewRequest w "GET" sitemapURL) as [req0|err].
  - destruct (client_Do w client (Header_Set req0 "User-Agent" userAgent)) as [body|err].
    + destruct (Parse rules body consumer s) as [[pevs [[d' s'] ret]]|] eqn:E;
        [|discriminate].
      intros H. injection H as <- _. simpl. rewrite requests_app.
      pose proof (Parse_no_requests _ _ _ _ _ E) as Hnone. simpl in Hnone.
      rewrite Hnone. reflexivity.
    + intros H. injection H as <- _. reflexivity.
  - intros H. injection H as <- _. reflexivity.
Qed.

(** An error made by [fmt.Errorf] with [%v] never passes [isTimeoutError]. *)
Lemma isTimeoutError_Errorf_v (prefix : string) (err : error) :
  isTimeoutError (Errorf_v prefix err) = ([], false).
Proof. reflexivity. Qed.

(** When the request cannot be created, [makeRequest] sends nothing and
    returns the re-created error. *)
Lemma makeRequest_not_sent {St : Type} (w : World) (rules : Rules) (client : Client)
    (sitemapURL userAgent : string) (consumer : EntryConsumer St) (s : St) (err : error) :
  http_NewRequest w "GET" sitemapURL = Err err ->
  makeRequest w rules client sitemapURL userAgent consumer s =
  Some ([], (s, Some (Errorf_v "failed to create request" err))).
Proof. unfold makeRequest. intros ->. reflexivity. Qed.

(** A failure of [client.Do] reaches the caller of [makeRequest] as a
    plain string error, whatever it was. *)
Lemma makeRequest_transport_failure {St : Type} (w : World) (rules : Rules)
    (client : Client) (sitemapURL userAgent : string) (consumer : EntryConsumer St)
    (s : St) (req0 : Request) (err : error) :
  http_NewRequest w "GET" sitemapURL = Ok req0 ->
  client_Do w client (Header_Set req0 "User-Agent" userAgent) = Err err ->
  makeRequest w rules client sitemapURL userAgent consumer s =
  Some ([EvDo client (Header_Set req0 "User-Agent" userAgent); EvLog (Error err)],
        (s, Some (Errorf_v "failed to make request" err))).
Proof. unfold makeRequest. intros -> ->. reflexivity. Qed.

(** ** The fetches return *)

Lemma makeRequest_total {St : Type} (w : World) (rules : Rules) (client : Client)
    (sitemapURL userAgent : string) (consumer : EntryConsumer St) (s : St) :
  exists r, makeRequest w rules client sitemapURL userAgent consumer s = Some r.
Proof.
  unfold makeRequest. destruct (http_NewRequest w "GET" sitemapURL) as [req0|err]; eauto.
  destruct (client_Do w client _) as [body|err]; eauto.
  destruct (Parse_total rules body consumer s) as [[evs [[d' s'] ret]] ->]. eauto.
Qed.

Lemma parseWithoutProxy_total {St : Type} (w : World) (rules : Rules)
    (sitemapURL userAgent : string) (consumer : EntryConsumer St) (s : St) :
  exists f, parseWithoutProxy w rules sitemapURL userAgent consumer s = Some f.
Proof.
  unfold parseWithoutProxy.
  destruct (makeRequest_total w rules
              (mkClient (mkTransport None (10 * Second)%Z true) (20 * Second)%Z)
              sitemapURL userAgent consumer s) as [[evs [s' ret]] ->].
  simpl. eauto.
Qed.

(** [ParseFromSite] ends, by a return or a panic, in every world and for
    every input. *)
Lemma ParseFromSite_total {St : Type} (w : World) (rules : Rules)
    (sitemapURL : string) (proxyServers : list string) (userAgent : string)
    (consumer : EntryConsumer St) (s : St) :
  exists f, ParseFromSite w rules sitemapURL proxyServers userAgent consumer s = Some f.
Proof.
  unfold ParseFromSite, parseWithProxy.
  destruct (Intn w (UnixNano w) (length proxyServers)) as [i|msg]; eauto.
  destruct (nth_error proxyServers i) as [selectedProxy|]; eauto.
  destruct (url_Parse w selectedProxy) as [proxyURL|err].
  - destruct (makeRequest_total w rules
                (mkClient (mkTransport (Some proxyURL) (10 * Second)%Z true) (20 * Second)%Z)
                sitemapURL userAgent consumer s) as [[evs [s1 ret]] ->].
    simpl. destruct ret as [err|]; eauto.
    destruct (isTimeoutError err) as [logged timed_out].
    destruct timed_out; eauto.
    destruct (parseWithoutProxy_total w rules sitemapURL userAgent consumer s1) as [f ->].
    simpl. eauto.
  - simpl. eauto.
Qed.

(** [ParseIndexFromSite] ends, by a return or a panic, in every world and
    for every input. *)
Lemma ParseIndexFromSite_total {St : Type} (w : World) (rules : Rules)
    (sitemapURL : string) (proxyServers : list string) (userAgent : string)
    (consumer : IndexEntryConsumer St) (s : St) :
  exists f, ParseIndexFromSite w rules sitemapURL proxyServers userAgent consumer s = Some f.
Proof.
  unfold ParseIndexFromSite.
  destruct (Intn w (UnixNano w) (length proxyServers)) as [i|msg]; eauto.
  destruct (nth_error proxyServers i) as [selectedProxy|]; eauto.
  destruct (url_Parse w selectedProxy) as [proxyURL|err]; eauto.
  destruct (http_NewRequest w "GET" sitemapURL) as [req0|err]; eauto.
  destruct (client_Do w _ _) as [body|err]; eauto.
  destruct (ParseIndex_total rules body consumer s) as [[evs [[d' s'] ret]] ->]. eauto.
Qed.

(** ** The fallback of [ParseFromSite] *)

(** Whatever error [client.Do] returns on the proxied attempt, a timeout
    included, [ParseFromSite] returns it re-created as a string and sends
    no second request. *)
Lemma ParseFromSite_transport_failure {St : Type} (w : World) (rules : Rules)
    (sitemapURL : string) (proxyServers : list string) (userAgent : string)
    (consumer : EntryConsumer St) (s : St)
    (i : nat) (selectedProxy : string) (proxyURL : URL) (req0 : Request) (err : error) :
  Intn w (UnixNano w) (length proxyServers) = Returns i ->
  nth_error proxyServers i = Some selectedProxy ->
  url_Parse w selectedProxy = Ok proxyURL ->
  http_NewRequest w "GET" sitemapURL = Ok req0 ->
  client_Do w (mkClient (mkTransport (Some proxyURL) (10 * Second)%Z true) (20 * Second)%Z)
    (Header_Set req0 "User-Agent" userAgent) = Err err ->
  ParseFromSite w rules sitemapURL proxyServers userAgent consumer s =
  Some ([EvDo (mkClient (mkTransport (Some proxyURL) (10 * Second)%Z true) (20 * Second)%Z)
           (Header_Set req0 "User-Agent" userAgent);
         EvLog (Error err)],
        (s, Returns (Some (Errorf_v "failed to make request" err)))).
Proof.
  intros Hi Hnth Hproxy Hreq Hdo. unfold ParseFromSite, parseWithProxy.
  rewrite Hi, Hnth, Hproxy.
  rewrite (makeRequest_transport_failure w rules _ sitemapURL userAgent consumer s req0 err
             Hreq Hdo).
  reflexivity.
Qed.

(** C3 (the code at a proxy that times out): in the world
    [proxy_times_out] the proxied [client.Do] fails with [timeout_error],
    which [isTimeoutError] accepts as a timeout; [ParseFromSite] with the
    pool [[sample_proxy]] sends the one proxied request and returns the
    error re-created as a string, without a direct request. *)
Theorem proxy_timeout_is_not_retried :
  snd (isTimeoutError timeout_error) = true /\
  routes (ParseFromSite proxy_times_out sample_rules sample_site [sample_proxy]
            sample_agent counting 0)
  = Some [Some (mkURL sample_proxy)] /\
  option_map how_it_ended
    (ParseFromSite proxy_times_out sample_rules sample_site [sample_proxy]
       sample_agent counting 0)
  = Some (Returns (Some (Errorf_v "failed to make request" timeout_error))).
Proof. repeat split; vm_compute; reflexivity. Qed.

(** C4 (the code at an empty pool): with no proxy in the pool, both
    [ParseFromSite] and [ParseIndexFromSite] panic in [Intn] before any
    request is sent, in every world. *)
Theorem empty_pool_panics {St : Type} (w : World) (rules : Rules)
    (sitemapURL userAgent : string) (consumer : EntryConsumer St)
    (indexConsumer : IndexEntryConsumer St) (s : St) :
  ParseFromSite w rules sitemapURL [] userAgent consumer s =
    Some ([], (s, Panics "invalid argument to Intn")) /\
  ParseIndexFromSite w rules sitemapURL [] userAgent indexConsumer s =
    Some ([], (s, Panics "invalid argument to Intn")).
Proof. split; reflexivity. Qed.

(** ** Timeouts of the clients *)

Lemma isTimeoutError_no_request (err : error) : requests (fst (isTimeoutError err)) = [].
Proof.
  unfold isTimeoutError.
  destruct (is_netError err && Timeout err); [reflexivity|].
  destruct err; try reflexivity.
  destruct (is_netError err && Timeout err); reflexivity.
Qed.

Lemma returned_inv {St : Type} (x : option (list event * (St * option error)))
    (f : Fetch St) :
  returned x = Some f ->
  exists ret, x = Some (fst f, (fst (snd f), ret)) /\ snd (snd f) = Returns ret.
Proof.
  destruct x as [[evs [s ret]]|]; [|discriminate].
  simpl. intros H. injection H as <-. exists ret. split; reflexivity.
Qed.

Lemma makeRequest_client {St : Type} (w : World) (rules : Rules) (client : Client)
    (sitemapURL userAgent : string) (consumer : EntryConsumer St) (s : St)
    (evs : list event) (after : St * option error) :
  makeRequest w rules client sitemapURL userAgent consumer s = Some (evs, after) ->
  Forall (fun cr => fst cr = client) (requests evs).
Proof.
  intros H. rewrite (makeRequest_requests _ _ _ _ _ _ _ _ _ H).
  destruct (http_NewRequest w "GET" sitemapURL); repeat constructor.
Qed.

Lemma parseWithProxy_timeouts {St : Type} (w : World) (rules : Rules)
    (sitemapURL : string) (proxyServers : list string) (userAgent : string)
    (consumer : EntryConsumer St) (s : St) (f : Fetch St) :
  parseWithProxy w rules sitemapURL proxyServers userAgent consumer s = Some f ->
  Forall (fun cr => timeouts_of (fst cr) = (10 * Second, 20 * Second)%Z) (requests (fst f)).
Proof.
  unfold parseWithProxy.
  destruct (Intn w (UnixNano w) (length proxyServers)) as [i|msg];
    [|intros H; injection H as <-; constructor].
  destruct (nth_error proxyServers i) as [selectedProxy|];
    [|intros H; injection H as <-; constructor].
  destruct (url_Parse w selectedProxy) as [proxyURL|err];
    [|intros H; injection H as <-; constructor].
  intros H. apply returned_inv in H. destruct H as (ret & H & _).
  apply makeRequest_client in H.
  eapply Forall_impl; [|exact H]. intros cr ->. reflexivity.
Qed.

Lemma parseWithoutProxy_timeouts {St : Type} (w : World) (rules : Rules)
    (sitemapURL userAgent : string) (consumer : EntryConsumer St) (s : St) (f : Fetch St) :
  parseWithoutProxy w rules sitemapURL userAgent consumer s = Some f ->
  Forall (fun cr => timeouts_of (fst cr) = (10 * Second, 20 * Second)%Z) (requests (fst f)).
Proof.
  unfold parseWithoutProxy.
  intros H. apply returned_inv in H. destruct H as (ret & H & _).
  apply makeRequest_client in H.
  eapply Forall_impl; [|exact H]. intros cr ->. reflexivity.
Qed.

Lemma ParseFromSite_timeouts {St : Type} (w : World) (rules : Rules)
    (sitemapURL : string) (proxyServers : list string) (userAgent : string)
    (consumer : EntryConsumer St) (s : St) (f : Fetch St) :
  ParseFromSite w rules sitemapURL proxyServers userAgent consumer s = Some f ->
  Forall (fun cr => timeouts_of (fst cr) = (10 * Second, 20 * Second)%Z) (requests (fst f)).
Proof.
  unfold ParseFromSite.
  destruct (parseWithProxy w rules sitemapURL proxyServers userAgent consumer s)
    as [[evs [s1 out]]|] eqn:E1; [|discriminate].
  apply parseWithProxy_timeouts in E1. simpl in E1.
  destruct out as [[err|]|msg]; try (intros H; injection H as <-; exact E1).
  pose proof (isTimeoutError_no_request err) as Hlog.
  destruct (isTimeoutError err) as [logged timed_out]. simpl in Hlog.
  destruct timed_out.
  - destruct (parseWithoutProxy w rules sitemapURL userAgent consumer s1) as [f2|] eqn:E2;
      [|discriminate].
    apply parseWithoutProxy_timeouts in E2.
    simpl. intros H. injection H as <-. simpl.
    rewrite !requests_app, Hlog. simpl. rewrite app_nil_r.
    apply Forall_app. split; [exact E1|exact E2].
  - intros H. injection H as <-. simpl. rewrite requests_app, Hlog, app_nil_r. exact E1.
Qed.

Lemma ParseIndexFromSite_timeouts {St : Type} (w : World) (rules : Rules)
    (sitemapURL : string) (proxyServers : list string) (userAgent : string)
    (consumer : IndexEntryConsumer St) (s : St) (f : Fetch St) :
  ParseIndexFromSite w rules sitemapURL proxyServers userAgent consumer s = Some f ->
  Forall (fun cr => timeouts_of (fst cr) = (0, 60 * Second)%Z) (requests (fst f)).
Proof.
  unfold ParseIndexFromSite.
  destruct (Intn w (UnixNano w) (length proxyServers)) as [i|msg];
    [|intros H; injection H as <-; constructor].
  destruct (nth_error proxyServers i) as [selectedProxy|];
    [|intros H; injection H as <-; constructor].
  destruct (url_Parse w selectedProxy) as [proxyURL|err];
    [|intros H; injection H as <-; constructor].
  destruct (http_NewRequest w "GET" sitemapURL) as [req0|err];
    [|intros H; injection H as <-; constructor].
  destruct (client_Do w _ _) as [body|err];
    [|intros H; injection H as <-; repeat constructor].
  destruct (ParseIndex rules body consumer s) as [[evs [[d' s'] ret]]|] eqn:E;
    [|discriminate].
  intros H. injection H as <-. simpl. rewrite requests_app.
  pose proof (ParseIndex_no_requests _ _ _ _ _ E) as Hnone. simpl in Hnone.
  rewrite Hnone. repeat constructor.
Qed.

(** C9 (the code at the index fetch): the one request of
    [ParseIndexFromSite] in the world [all_reachable] goes through a
    client whose handshake timeout is 0, which the transport reads as no
    timeout, not 10 s; its overall timeout is 60 s.  Both requests of
    [ParseFromSite] in the world [proxy_stalls], the proxied one and the
    direct one, go through clients with a 10 s handshake timeout and a
    20 s overall timeout. *)
Theorem index_client_has_no_handshake_timeout :
  timeouts (ParseIndexFromSite (all_reachable two_sitemaps) sample_rules sample_site
              [sample_proxy] sample_agent counting_index 0)
  = Some [(0, 60 * Second)%Z] /\
  (0 <> 10 * Second)%Z /\
  timeouts (ParseFromSite proxy_stalls sample_rules sample_site [sample_proxy]
              sample_agent counting 0)
  = Some [(10 * Second, 20 * Second)%Z; (10 * Second, 20 * Second)%Z].
Proof. split; [vm_compute; reflexivity|split; [discriminate|vm_compute; reflexivity]]. Qed.

(** ** The two fetches side by side *)

(** C5 (as stated, at concrete calls): in a world where every request is
    answered the two fetches configure their clients differently, and in
    the world [proxy_stalls] the page fetch follows the proxied request
    by a direct one while the index fetch sends the proxied request
    only. *)
Lemma fetches_differ :
  timeouts (ParseFromSite (all_reachable two_sitemaps) sample_rules sample_site
              [sample_proxy] sample_agent counting 0)
  <> timeouts (ParseIndexFromSite (all_reachable two_sitemaps) sample_rules sample_site
                 [sample_proxy] sample_agent counting_index 0) /\
  routes (ParseFromSite proxy_stalls sample_rules sample_site [sample_proxy]
            sample_agent counting 0)
  = Some [Some (mkURL sample_proxy); None] /\
  routes (ParseIndexFromSite proxy_stalls sample_rules sample_site [sample_proxy]
            sample_agent counting_index 0)
  = Some [Some (mkURL sample_proxy)].
Proof.
  split; [|split; vm_compute; reflexivity].
  vm_compute. discriminate.
Qed.

Lemma ParseFromSite_first_attempt {St : Type} (w : World) (rules : Rules)
    (sitemapURL : string) (proxyServers : list string) (userAgent : string)
    (consumer : EntryConsumer St) (s : St) (f : Fetch St) :
  ParseFromSite w rules sitemapURL proxyServers userAgent consumer s = Some f ->
  first_attempt w sitemapURL proxyServers userAgent
    (fun proxyURL => mkClient (mkTransport (Some proxyURL) (10 * Second)%Z true)
                       (20 * Second)%Z) f.
Proof.
  unfold ParseFromSite, parseWithProxy, first_attempt.
  destruct (Intn w (UnixNano w) (length proxyServers)) as [i|msg];
    [|intros H; injection H as <-; split; reflexivity].
  destruct (nth_error proxyServers i) as [selectedProxy|];
    [|intros H; injection H as <-; split; reflexivity].
  destruct (url_Parse w selectedProxy) as [proxyURL|err];
    [|intros H; injection H as <-; split; reflexivity].
  destruct (http_NewRequest w "GET" sitemapURL) as [req0|err] eqn:Ereq.
  - destruct (makeRequest w rules _ sitemapURL userAgent consumer s)
      as [[evs [s1 ret]]|] eqn:Emk; [|discriminate].
    pose proof (makeRequest_requests _ _ _ _ _ _ _ _ _ Emk) as Hreqs.
    rewrite Ereq in Hreqs. simpl.
    destruct ret as [err|]; [|intros H; injection H as <-; simpl; rewrite Hreqs; reflexivity].
    destruct (isTimeoutError err) as [logged timed_out].
    destruct timed_out.
    + destruct (parseWithoutProxy w rules sitemapURL userAgent consumer s1) as [f2|];
        [|discriminate].
      simpl. intros H. injection H as <-. simpl.
      rewrite !requests_app, Hreqs. reflexivity.
    + intros H. injection H as <-. simpl. rewrite requests_app, Hreqs. reflexivity.
  - rewrite (makeRequest_not_sent w rules _ sitemapURL userAgent consumer s err Ereq).
    simpl. intros H. injection H as <-. split; reflexivity.
Qed.

Lemma ParseIndexFromSite_first_attempt {St : Type} (w : World) (rules : Rules)
    (sitemapURL : string) (proxyServers : list string) (userAgent : string)
    (consumer : IndexEntryConsumer St) (s : St) (f : Fetch St) :
  ParseIndexFromSite w rules sitemapURL proxyServers userAgent consumer s = Some f ->
  first_attempt w sitemapURL proxyServers userAgent
    (fun proxyURL => mkClient (mkTransport (Some proxyURL) 0%Z true) (60 * Second)%Z) f.
Proof.
  unfold ParseIndexFromSite, first_attempt.
  destruct (Intn w (UnixNano w) (length proxyServers)) as [i|msg];
    [|intros H; injection H as <-; split; reflexivity].
  destruct (nth_error proxyServers i) as [selectedProxy|];
    [|intros H; injection H as <-; split; reflexivity].
  destruct (url_Parse w selectedProxy) as [proxyURL|err];
    [|intros H; injection H as <-; split; reflexivity].
  destruct (http_NewRequest w "GET" sitemapURL) as [req0|err];
    [|intros H; injection H as <-; split; reflexivity].
  destruct (client_Do w _ _) as [body|err];
    [|intros H; injection H as <-; reflexivity].
  destruct (ParseIndex rules body consumer s) as [[evs [[d' s'] ret]]|];
    [|discriminate].
  intros H. injection H as <-. reflexivity.
Qed.

(** With a proxy in the pool, [Intn] returns an index into the pool. *)
Lemma Intn_selects (w : World) (seed : Z) (proxyServers : list string) :
  proxyServers <> [] ->
  exists i selectedProxy,
    Intn w seed (length proxyServers) = Returns i /\
    nth_error proxyServers i = Some selectedProxy.
Proof.
  intros Hne. destruct proxyServers as [|p ps]; [congruence|].
  unfold Intn. cbn [length].
  set (n := S (length ps)).
  assert (Hlt : Nat.modulo (rand_draw w seed n) n < length (p :: ps)).
  { apply Nat.mod_upper_bound. unfold n. discriminate. }
  destruct (nth_error (p :: ps) (Nat.modulo (rand_draw w seed n) n)) as [q|] eqn:E.
  - eauto.
  - apply nth_error_None in E. lia.
Qed.

(** * Further properties of [sitemap.go] *)

(** ** The timeout test *)

Lemma isTimeoutError_decides (err : error) :
  isTimeoutError err =
  (if is_netError err && Timeout err then [EvLog "Timeout error"] else [],
   is_netError err && Timeout err).
Proof.
  unfold isTimeoutError.
  destruct (is_netError err && Timeout err) eqn:E; [reflexivity|].
  destruct err as [|msg|msg t|op u inner|msg|field record]; try reflexivity.
  simpl in E. rewrite E, andb_false_r. reflexivity.
Qed.

(** X1: [isTimeoutError] answers true exactly when the error value has
    the methods of [net.Error] and its [Timeout()] holds, and logs one
    line exactly then.  The second test of the source, for a [url.Error]
    around a timeout, never decides: such a value already passes the
    first test, since [url.Error] has a [Timeout] method that asks the
    wrapped error. *)
Theorem isTimeoutError_is_first_test (err : error) :
  isTimeoutError err =
  (if is_netError err && Timeout err then [EvLog "Timeout error"] else [],
   is_netError err && Timeout err).
Proof. exact (isTimeoutError_decides err). Qed.

(** ** Events of the parse entry points *)

Lemma tokens_walk_events (evs : list event) :
  Forall is_token_event evs -> Forall is_walk_event evs.
Proof.
  apply Forall_impl. intros ev H. destruct ev; simpl in *; tauto.
Qed.

Lemma entryParser_walk_events {St : Type} (rules : Rules) (consumer : EntryConsumer St)
    (d : Reader) (se : string) (s : St) :
  Forall is_walk_event (fst (entryParser rules consumer d se s)).
Proof.
  unfold entryParser. destruct (String.eqb se "url"); [|constructor].
  pose proof (DecodeElement_emits_tokens d 0 None []) as Htok.
  destruct (DecodeElement d 0 None []) as [evs [d' decoded]]. simpl in Htok.
  apply tokens_walk_events in Htok.
  destruct decoded as [kids|e]; [|exact Htok].
  destruct (materializeEntry rules kids) as [entry|e]; [|exact Htok].
  destruct (consumer s entry) as [s' ret]. simpl.
  apply Forall_app. split; [exact Htok|repeat constructor].
Qed.

Lemma indexEntryParser_walk_events {St : Type} (rules : Rules)
    (consumer : IndexEntryConsumer St) (d : Reader) (se : string) (s : St) :
  Forall is_walk_event (fst (indexEntryParser rules consumer d se s)).
Proof.
  unfold indexEntryParser. destruct (String.eqb se "sitemap"); [|constructor].
  pose proof (DecodeElement_emits_tokens d 0 None []) as Htok.
  destruct (DecodeElement d 0 None []) as [evs [d' decoded]]. simpl in Htok.
  apply tokens_walk_events in Htok.
  destruct decoded as [kids|e]; [|exact Htok].
  destruct (materializeIndexEntry rules kids) as [entry|e]; [|exact Htok].
  destruct (consumer s entry) as [s' ret]. simpl.
  apply Forall_app. split; [exact Htok|repeat constructor].
Qed.

Lemma closes_app (a b : list event) : closes (a ++ b) = closes a + closes b.
Proof. unfold closes. rewrite flat_map_app, length_app. reflexivity. Qed.

Lemma logged_bodies_app (a b : list event) :
  logged_bodies (a ++ b) = logged_bodies a ++ logged_bodies b.
Proof. apply flat_map_app. Qed.

Lemma walk_events_no_close (evs : list event) :
  Forall is_walk_event evs -> closes evs = 0.
Proof.
  induction 1 as [|ev evs Hev _ IH]; [reflexivity|].
  destruct ev; simpl in *; try contradiction; exact IH.
Qed.

Lemma walk_events_no_log (evs : list event) :
  Forall is_walk_event evs -> logged_bodies evs = [].
Proof.
  induction 1 as [|ev evs Hev _ IH]; [reflexivity|].
  destruct ev; simpl in *; try contradiction; exact IH.
Qed.

Lemma ParseIndex_walk_events {St : Type} (rules : Rules) (reader : Reader)
    (consumer : IndexEntryConsumer St) (s : St) (w : Walk St) :
  ParseIndex rules reader consumer s = Some w -> Forall is_walk_event (fst w).
Proof.
  unfold ParseIndex, parseLoop. intros E.
  eapply (parseLoop_fuel_Forall is_walk_event); [| |exact E].
  - intros t; exact I.
  - intros; apply indexEntryParser_walk_events.
Qed.

(** The events of [Parse]: the pre-read, the log line if any, and then
    events of the walk only. *)
Lemma Parse_events {St : Type} (rules : Rules) (reader : Reader)
    (consumer : EntryConsumer St) (s : St) (w : Walk St) :
  Parse rules reader consumer s = Some w ->
  exists wevs,
    Forall is_walk_event wevs /\
    fst w =
    EvReadAll (fst (fst (ReadAll reader))) (snd (fst (ReadAll reader)))
      :: match snd (fst (ReadAll reader)) with
         | None => [EvLogBody (fst (fst (ReadAll reader)))]
         | Some _ => []
         end ++ wevs.
Proof.
  unfold Parse. destruct (ReadAll reader) as [[body err] reader'].
  destruct (parseLoop reader' (entryParser rules consumer) s) as [w0|] eqn:E;
    [|discriminate].
  simpl. intros H. injection H as <-. exists (fst w0). split; [|reflexivity].
  eapply (parseLoop_fuel_Forall is_walk_event); [| |exact E].
  - intros t; exact I.
  - intros; apply entryParser_walk_events.
Qed.

Lemma Parse_no_close {St : Type} (rules : Rules) (reader : Reader)
    (consumer : EntryConsumer St) (s : St) (w : Walk St) :
  Parse rules reader consumer s = Some w -> closes (fst w) = 0.
Proof.
  intros H. destruct (Parse_events _ _ _ _ _ H) as (wevs & Hw & ->).
  change (closes (EvReadAll ?b ?e :: ?l)) with (closes l).
  rewrite closes_app, (walk_events_no_close _ Hw).
  destruct (snd (fst (ReadAll reader))); reflexivity.
Qed.

(** X2: [Parse] writes the payload to the log exactly when the
    preliminary read reported no error, then once and in full: the logged
    body is everything [ReadAll] read.  Nothing else in [Parse] logs a
    payload, and [ParseIndex] never does. *)
Theorem Parse_logs_the_payload {St : Type} (rules : Rules) (reader : Reader) :
  (forall (consumer : EntryConsumer St) (s : St) (w : Walk St),
      Parse rules reader consumer s = Some w ->
      logged_bodies (fst w) =
      match snd (fst (ReadAll reader)) with
      | None => [fst (fst (ReadAll reader))]
      | Some _ => []
      end) /\
  (forall (consumer : IndexEntryConsumer St) (s : St) (w : Walk St),
      ParseIndex rules reader consumer s = Some w ->
      logged_bodies (fst w) = []).
Proof.
  split; intros consumer s w H.
  - destruct (Parse_events _ _ _ _ _ H) as (wevs & Hw & ->).
    change (logged_bodies (EvReadAll ?b ?e :: ?l)) with (logged_bodies l).
    rewrite logged_bodies_app, (walk_events_no_log _ Hw), app_nil_r.
    destruct (snd (fst (ReadAll reader))); reflexivity.
  - apply walk_events_no_log. eapply ParseIndex_walk_events; exact H.
Qed.

Lemma Parse_logs_the_payload_witness :
  exists w,
    Parse sample_rules (stream_of two_pages) counting 0 = Some w /\
    logged_bodies (fst w) = [stream_of two_pages].
Proof.
  eexists.
  match goal with
  | |- ?run /\ _ => assert (Hrun : run) by (vm_compute; reflexivity)
  end.
  split; [exact Hrun|].
  exact (proj1 (Parse_logs_the_payload sample_rules (stream_of two_pages))
           counting 0 _ Hrun).
Defined.

(** ** The ways a fetch can go *)

Lemma makeRequest_cases {St : Type} (w : World) (rules : Rules) (client : Client)
    (sitemapURL userAgent : string) (consumer : EntryConsumer St) (s s' : St)
    (evs : list event) (ret : option error) :
  makeRequest w rules client sitemapURL userAgent consumer s = Some (evs, (s', ret)) ->
  (exists e,
      http_NewRequest w "GET" sitemapURL = Err e /\
      evs = [] /\ s' = s /\ ret = Some (Errorf_v "failed to create request" e)) \/
  (exists req0 e,
      http_NewRequest w "GET" sitemapURL = Ok req0 /\
      client_Do w client (Header_Set req0 "User-Agent" userAgent) = Err e /\
      evs = [EvDo client (Header_Set req0 "User-Agent" userAgent); EvLog (Error e)] /\
      s' = s /\ ret = Some (Errorf_v "failed to make request" e)) \/
  (exists req0 body pevs d',
      http_NewRequest w "GET" sitemapURL = Ok req0 /\
      client_Do w client (Header_Set req0 "User-Agent" userAgent) = Ok body /\
      Parse rules body consumer s = Some (pevs, (d', s', ret)) /\
      evs = EvDo client (Header_Set req0 "User-Agent" userAgent) :: pevs ++ [EvClose]).
Proof.
  unfold makeRequest. destruct (http_NewRequest w "GET" sitemapURL) as [req0|e].
  - destruct (client_Do w client (Header_Set req0 "User-Agent" userAgent)) as [body|e] eqn:Edo.
    + destruct (Parse rules body consumer s) as [[pevs [[d' s1] ret1]]|] eqn:EP;
        [|discriminate].
      intros H. injection H as <- <- <-. right. right.
      exists req0, body, pevs, d'. auto.
    + intros H. injection H as <- <- <-. right. left. exists req0, e. auto.
  - intros H. injection H as <- <- <-. left. exists e. auto.
Qed.

(** Every run of [ParseFromSite] is one of four: the panic on the empty
    pool; a proxy URL that does not parse; a proxied attempt whose result
    is returned; a proxied attempt that ended in an error accepted by
    [isTimeoutError], followed by the direct attempt. *)
Lemma ParseFromSite_cases {St : Type} (w : World) (rules : Rules)
    (sitemapURL : string) (proxyServers : list string) (userAgent : string)
    (consumer : EntryConsumer St) (s : St) (f : Fetch St) :
  ParseFromSite w rules sitemapURL proxyServers userAgent consumer s = Some f ->
  (proxyServers = [] /\ f = ([], (s, Panics "invalid argument to Intn"))) \/
  exists selectedProxy,
    In selectedProxy proxyServers /\
    ((exists e,
         url_Parse w selectedProxy = Err e /\
         f = ([EvLog (Error e)],
              (s, Returns (Some (Errorf_v "failed to parse proxy URL" e))))) \/
     exists proxyURL evs s1 ret,
       url_Parse w selectedProxy = Ok proxyURL /\
       makeRequest w rules (proxied_client proxyURL) sitemapURL userAgent consumer s =
         Some (evs, (s1, ret)) /\
       ((match ret with
         | Some err => is_netError err && Timeout err = false
         | None => True
         end /\
         f = (evs, (s1, Returns ret))) \/
        exists err evs2 s2 ret2,
          ret = Some err /\
          is_netError err && Timeout err = true /\
          makeRequest w rules direct_client sitemapURL userAgent consumer s1 =
            Some (evs2, (s2, ret2)) /\
          f = (evs ++ [EvLog "Timeout error";
                       EvLog "Proxy request timed out. Falling back to direct request."]
                   ++ evs2,
               (s2, Returns ret2)))).
Proof.
  unfold ParseFromSite, parseWithProxy.
  destruct proxyServers as [|p0 ps] eqn:Epool.
  { simpl. intros H. injection H as <-. left. auto. }
  rewrite <- Epool.
  destruct (Intn_selects w (UnixNano w) proxyServers ltac:(subst; discriminate))
    as (i & selectedProxy & -> & Hnth).
  rewrite Hnth. intros H. right. exists selectedProxy.
  split; [exact (nth_error_In _ _ Hnth)|].
  destruct (url_Parse w selectedProxy) as [proxyURL|e].
  - right.
    fold (proxied_client proxyURL) in H.
    destruct (makeRequest w rules (proxied_client proxyURL) sitemapURL userAgent consumer s)
      as [[evs [s1 ret]]|] eqn:Emk; [|discriminate].
    exists proxyURL, evs, s1, ret. split; [reflexivity|]. split; [first [exact Emk|reflexivity]|].
    simpl in H. destruct ret as [err|].
    + rewrite isTimeoutError_decides in H.
      destruct (is_netError err && Timeout err) eqn:Et.
      * right. unfold parseWithoutProxy in H. fold direct_client in H.
        destruct (makeRequest w rules direct_client sitemapURL userAgent consumer s1)
          as [[evs2 [s2 ret2]]|] eqn:Emk2; [|discriminate].
        simpl in H. injection H as <-.
        exists err, evs2, s2, ret2.
        split; [reflexivity|]. split; [first [exact Et|reflexivity]|].
        split; [first [exact Emk2|reflexivity]|].
        unfold emits. simpl. rewrite <- app_assoc. reflexivity.
      * left. injection H as <-. rewrite app_nil_r. auto.
    + left. injection H as <-. auto.
  - left. exists e. simpl in H. injection H as <-. auto.
Qed.

(** Every run of [ParseIndexFromSite] is one of five: the panic on the
    empty pool, or a selected proxy and then: a proxy URL that does not
    parse, a site URL that does not parse, a request that fails, or a
    response whose body goes to [ParseIndex]. *)
Lemma ParseIndexFromSite_cases {St : Type} (w : World) (rules : Rules)
    (sitemapURL : string) (proxyServers : list string) (userAgent : string)
    (consumer : IndexEntryConsumer St) (s : St) (f : Fetch St) :
  ParseIndexFromSite w rules sitemapURL proxyServers userAgent consumer s = Some f ->
  (proxyServers = [] /\ f = ([], (s, Panics "invalid argument to Intn"))) \/
  exists selectedProxy,
    In selectedProxy proxyServers /\
    ((exists e,
         url_Parse w selectedProxy = Err e /\
         f = ([], (s, Returns (Some (Errorf_v "failed to parse proxy URL" e))))) \/
     exists proxyURL,
       url_Parse w selectedProxy = Ok proxyURL /\
       ((exists e,
            http_NewRequest w "GET" sitemapURL = Err e /\
            f = ([], (s, Returns (Some (Errorf_v "failed to create request" e))))) \/
        exists req0,
          http_NewRequest w "GET" sitemapURL = Ok req0 /\
          ((exists e,
               client_Do w (with_index_timeouts (proxied_client proxyURL))
                 (Header_Set req0 "User-Agent" userAgent) = Err e /\
               f = ([EvDo (with_index_timeouts (proxied_client proxyURL))
                       (Header_Set req0 "User-Agent" userAgent)],
                    (s, Returns (Some (Errorf_v "failed to make request" e))))) \/
           exists body pevs d' s' ret,
             client_Do w (with_index_timeouts (proxied_client proxyURL))
               (Header_Set req0 "User-Agent" userAgent) = Ok body /\
             ParseIndex rules body consumer s = Some (pevs, (d', s', ret)) /\
             f = (EvDo (with_index_timeouts (proxied_client proxyURL))
                    (Header_Set req0 "User-Agent" userAgent) :: pevs ++ [EvClose],
                  (s', Returns ret))))).
Proof.
  unfold ParseIndexFromSite.
  destruct proxyServers as [|p0 ps] eqn:Epool.
  { simpl. intros H. injection H as <-. left. auto. }
  rewrite <- Epool.
  destruct (Intn_selects w (UnixNano w) proxyServers ltac:(subst; discriminate))
    as (i & selectedProxy & -> & Hnth).
  rewrite Hnth. intros H. right. exists selectedProxy.
  split; [exact (nth_error_In _ _ Hnth)|].
  destruct (url_Parse w selectedProxy) as [proxyURL|e].
  - right. exists proxyURL. split; [reflexivity|].
    change (mkClient (mkTransport (Some proxyURL) 0%Z true) (60 * Second)%Z)
      with (with_index_timeouts (proxied_client proxyURL)) in H.
    destruct (http_NewRequest w "GET" sitemapURL) as [req0|e].
    + right. exists req0. split; [reflexivity|].
      destruct (client_Do w (with_index_timeouts (proxied_client proxyURL))
                  (Header_Set req0 "User-Agent" userAgent)) as [body|e].
      * right.
        destruct (ParseIndex rules body consumer s) as [[pevs [[d' s'] ret]]|] eqn:EP;
          [|discriminate].
        injection H as <-. exists body, pevs, d', s', ret. auto.
      * left. exists e. injection H as <-. auto.
    + left. exists e. injection H as <-. auto.
  - left. exists e. injection H as <-. auto.
Qed.

Lemma Errorf_v_is_no_timeout (prefix : string) (e : error) :
  is_netError (Errorf_v prefix e) && Timeout (Errorf_v prefix e) = false.
Proof. reflexivity. Qed.

(** An error of [makeRequest] that passes the timeout test was returned
    by [Parse] on the body of a response. *)
Lemma makeRequest_timeout_comes_from_Parse {St : Type} (w : World) (rules : Rules)
    (client : Client) (sitemapURL userAgent : string) (consumer : EntryConsumer St)
    (s s' : St) (evs : list event) (err : error) :
  makeRequest w rules client sitemapURL userAgent consumer s = Some (evs, (s', Some err)) ->
  is_netError err && Timeout err = true ->
  exists req0 body pevs d',
    http_NewRequest w "GET" sitemapURL = Ok req0 /\
    client_Do w client (Header_Set req0 "User-Agent" userAgent) = Ok body /\
    Parse rules body consumer s = Some (pevs, (d', s', Some err)) /\
    evs = EvDo client (Header_Set req0 "User-Agent" userAgent) :: pevs ++ [EvClose].
Proof.
  intros Hmk Ht.
  destruct (makeRequest_cases _ _ _ _ _ _ _ _ _ _ Hmk)
    as [(e & _ & _ & _ & Hret)|[(req0 & e & _ & _ & _ & _ & Hret)|Hparse]].
  - injection Hret as ->. discriminate.
  - injection Hret as ->. discriminate.
  - exact Hparse.
Qed.

(** ** Where the requests go *)

(** X3: [ParseFromSite] sends no request, or one request through the
    parsed URL of a proxy of the pool, or that proxied request followed
    by one direct request; never more than two, never a direct request
    first, never two proxied ones. *)
Theorem ParseFromSite_routes {St : Type} (w : World) (rules : Rules)
    (sitemapURL : string) (proxyServers : list string) (userAgent : string)
    (consumer : EntryConsumer St) (s : St) :
  exists l,
    routes (ParseFromSite w rules sitemapURL proxyServers userAgent consumer s) = Some l /\
    (l = [] \/
     exists selectedProxy proxyURL,
       In selectedProxy proxyServers /\
       url_Parse w selectedProxy = Ok proxyURL /\
       (l = [Some proxyURL] \/ l = [Some proxyURL; None])).
Proof.
  destruct (ParseFromSite_total w rules sitemapURL proxyServers userAgent consumer s)
    as [f Hf].
  rewrite Hf. unfold routes. simpl. eexists. split; [reflexivity|].
  destruct (ParseFromSite_cases _ _ _ _ _ _ _ _ Hf)
    as [[_ ->]|(p & Hin & [(e & _ & ->)|(u & evs & s1 & ret & Hu & Hmk & Hrest)])];
    [left; reflexivity|left; reflexivity|].
  pose proof (makeRequest_requests _ _ _ _ _ _ _ _ _ Hmk) as Hreqs.
  destruct Hrest as [[_ ->]|(err & evs2 & s2 & ret2 & -> & Ht & Hmk2 & ->)].
  - simpl. rewrite Hreqs.
    destruct (http_NewRequest w "GET" sitemapURL) as [req0|e];
      [right; exists p, u; auto|left; reflexivity].
  - right. exists p, u. split; [exact Hin|]. split; [exact Hu|]. right.
    pose proof (makeRequest_requests _ _ _ _ _ _ _ _ _ Hmk2) as Hreqs2.
    destruct (makeRequest_timeout_comes_from_Parse _ _ _ _ _ _ _ _ _ _ Hmk Ht)
      as (req0 & body & pevs & d' & Hreq & _).
    rewrite Hreq in Hreqs, Hreqs2.
    cbn [fst]. rewrite !requests_app, Hreqs, Hreqs2. reflexivity.
Qed.

(** X4: [ParseIndexFromSite] sends at most one request, and that one
    through the parsed URL of a proxy of the pool; it never sends a
    direct request. *)
Theorem ParseIndexFromSite_routes {St : Type} (w : World) (rules : Rules)
    (sitemapURL : string) (proxyServers : list string) (userAgent : string)
    (consumer : IndexEntryConsumer St) (s : St) :
  exists l,
    routes (ParseIndexFromSite w rules sitemapURL proxyServers userAgent consumer s)
      = Some l /\
    (l = [] \/
     exists selectedProxy proxyURL,
       In selectedProxy proxyServers /\
       url_Parse w selectedProxy = Ok proxyURL /\
       l = [Some proxyURL]).
Proof.
  destruct (ParseIndexFromSite_total w rules sitemapURL proxyServers userAgent consumer s)
    as [f Hf].
  rewrite Hf. unfold routes. simpl. eexists. split; [reflexivity|].
  destruct (ParseIndexFromSite_cases _ _ _ _ _ _ _ _ Hf)
    as [[_ ->]|(p & Hin & [(e & _ & ->)|(u & Hu & [(e & _ & ->)|(req0 & _ & Hdo)])])];
    [left; reflexivity|left; reflexivity|left; reflexivity|].
  right. exists p, u. split; [exact Hin|]. split; [exact Hu|].
  destruct Hdo as [(e & _ & ->)|(body & pevs & d' & s' & ret & _ & HP & ->)].
  - reflexivity.
  - simpl. rewrite requests_app.
    pose proof (ParseIndex_no_requests _ _ _ _ _ HP) as Hnone. simpl in Hnone.
    rewrite Hnone. reflexivity.
Qed.

(** X5: [ParseFromSite] sends a direct request only after the proxy has
    answered: the proxied [client.Do] returned a response, and [Parse] on
    its body returned an error that is a [net.Error] with [Timeout()]
    true.  No failure of the proxied [client.Do] itself leads to a direct
    request. *)
Theorem direct_request_follows_a_response {St : Type} (w : World) (rules : Rules)
    (sitemapURL : string) (proxyServers : list string) (userAgent : string)
    (consumer : EntryConsumer St) (s : St) (f : Fetch St) (c : Client) (req : Request) :
  ParseFromSite w rules sitemapURL proxyServers userAgent consumer s = Some f ->
  In (c, req) (requests (fst f)) ->
  Proxy (ClientTransport c) = None ->
  exists selectedProxy proxyURL req0 body pevs d' s1 err,
    In selectedProxy proxyServers /\
    url_Parse w selectedProxy = Ok proxyURL /\
    http_NewRequest w "GET" sitemapURL = Ok req0 /\
    client_Do w (proxied_client proxyURL) (Header_Set req0 "User-Agent" userAgent)
      = Ok body /\
    Parse rules body consumer s = Some (pevs, (d', s1, Some err)) /\
    is_netError err && Timeout err = true.
Proof.
  intros Hf Hin Hdirect.
  destruct (ParseFromSite_cases _ _ _ _ _ _ _ _ Hf)
    as [[_ ->]|(p & Hp & [(e & _ & ->)|(u & evs & s1 & ret & Hu & Hmk & Hrest)])];
    [destruct Hin|destruct Hin|].
  pose proof (makeRequest_requests _ _ _ _ _ _ _ _ _ Hmk) as Hreqs.
  destruct Hrest as [[_ ->]|(err & evs2 & s2 & ret2 & -> & Ht & Hmk2 & ->)].
  - exfalso. simpl in Hin. rewrite Hreqs in Hin.
    destruct (http_NewRequest w "GET" sitemapURL) as [req0|e]; [|destruct Hin].
    destruct Hin as [Heq|[]]. injection Heq as <- _. discriminate.
  - destruct (makeRequest_timeout_comes_from_Parse _ _ _ _ _ _ _ _ _ _ Hmk Ht)
      as (req0 & body & pevs & d' & Hreq & Hdo & HP & _).
    exists p, u, req0, body, pevs, d', s1, err. auto 10.
Qed.

Lemma direct_request_follows_a_response_witness :
  exists body pevs d' s1 err,
    client_Do proxy_stalls (proxied_client (mkURL sample_proxy))
      (Header_Set (mkRequest "GET" (mkURL sample_site) []) "User-Agent" sample_agent)
      = Ok body /\
    Parse sample_rules body counting 0 = Some (pevs, (d', s1, Some err)) /\
    is_netError err && Timeout err = true.
Proof.
  destruct (ParseFromSite proxy_stalls sample_rules sample_site [sample_proxy]
              sample_agent counting 0) as [f|] eqn:Hf; [|discriminate Hf].
  assert (Hin : In (direct_client,
                    Header_Set (mkRequest "GET" (mkURL sample_site) []) "User-Agent"
                      sample_agent)
                  (requests (fst f))).
  { vm_compute in Hf. injection Hf as <-. vm_compute. tauto. }
  destruct (direct_request_follows_a_response proxy_stalls sample_rules sample_site
              [sample_proxy] sample_agent counting 0 f _ _ Hf Hin eq_refl)
    as (p & u & req0 & body & pevs & d' & s1 & err & Hp & Hu & Hreq & Hdo & HP & Ht).
  destruct Hp as [<-|[]]. injection Hu as <-. injection Hreq as <-.
  exists body, pevs, d', s1, err. auto.
Defined.

(** ** What every request looks like *)

Lemma http_NewRequest_inv (w : World) (method url : string) (req0 : Request) :
  http_NewRequest w method url = Ok req0 ->
  exists u, url_Parse w url = Ok u /\ req0 = mkRequest method u [].
Proof.
  unfold http_NewRequest. destruct (url_Parse w url) as [u|e]; [|discriminate].
  intros H. injection H as <-. eauto.
Qed.

(** The request both fetches send, for a site URL that parses to [u]. *)
Lemma sent_request (w : World) (sitemapURL userAgent : string) (req0 : Request) :
  http_NewRequest w "GET" sitemapURL = Ok req0 ->
  exists u,
    url_Parse w sitemapURL = Ok u /\
    Header_Set req0 "User-Agent" userAgent = mkRequest "GET" u [("User-Agent", userAgent)].
Proof.
  intros H. apply http_NewRequest_inv in H. destruct H as (u & Hu & ->).
  exists u. split; [exact Hu|reflexivity].
Qed.

Lemma ParseFromSite_requests {St : Type} (w : World) (rules : Rules)
    (sitemapURL : string) (proxyServers : list string) (userAgent : string)
    (consumer : EntryConsumer St) (s : St) (f : Fetch St) :
  ParseFromSite w rules sitemapURL proxyServers userAgent consumer s = Some f ->
  Forall (fun cr =>
            (fst cr = direct_client \/
             exists selectedProxy proxyURL,
               In selectedProxy proxyServers /\
               url_Parse w selectedProxy = Ok proxyURL /\
               fst cr = proxied_client proxyURL) /\
            exists u,
              url_Parse w sitemapURL = Ok u /\
              snd cr = mkRequest "GET" u [("User-Agent", userAgent)])
    (requests (fst f)).
Proof.
  intros Hf.
  destruct (ParseFromSite_cases _ _ _ _ _ _ _ _ Hf)
    as [[_ ->]|(p & Hp & [(e & _ & ->)|(u & evs & s1 & ret & Hu & Hmk & Hrest)])];
    [constructor|constructor|].
  pose proof (makeRequest_requests _ _ _ _ _ _ _ _ _ Hmk) as Hreqs.
  assert (Hfirst : Forall (fun cr =>
            (fst cr = direct_client \/
             exists selectedProxy proxyURL,
               In selectedProxy proxyServers /\
               url_Parse w selectedProxy = Ok proxyURL /\
               fst cr = proxied_client proxyURL) /\
            exists u,
              url_Parse w sitemapURL = Ok u /\
              snd cr = mkRequest "GET" u [("User-Agent", userAgent)])
            (requests evs)).
  { rewrite Hreqs. destruct (http_NewRequest w "GET" sitemapURL) as [req0|e] eqn:Ereq;
      [|constructor].
    constructor; [|constructor]. split.
    - right. exists p, u. auto.
    - exact (sent_request w sitemapURL userAgent req0 Ereq). }
  destruct Hrest as [[_ ->]|(err & evs2 & s2 & ret2 & -> & Ht & Hmk2 & ->)];
    [exact Hfirst|].
  cbn [fst]. rewrite !requests_app. apply Forall_app. split; [exact Hfirst|].
  simpl. rewrite (makeRequest_requests _ _ _ _ _ _ _ _ _ Hmk2).
  destruct (http_NewRequest w "GET" sitemapURL) as [req0|e] eqn:Ereq; [|constructor].
  constructor; [|constructor]. split.
  - left. reflexivity.
  - exact (sent_request w sitemapURL userAgent req0 Ereq).
Qed.

Lemma ParseIndexFromSite_requests {St : Type} (w : World) (rules : Rules)
    (sitemapURL : string) (proxyServers : list string) (userAgent : string)
    (consumer : IndexEntryConsumer St) (s : St) (f : Fetch St) :
  ParseIndexFromSite w rules sitemapURL proxyServers userAgent consumer s = Some f ->
  Forall (fun cr =>
            (exists selectedProxy proxyURL,
               In selectedProxy proxyServers /\
               url_Parse w selectedProxy = Ok proxyURL /\
               fst cr = with_index_timeouts (proxied_client proxyURL)) /\
            exists u,
              url_Parse w sitemapURL = Ok u /\
              snd cr = mkRequest "GET" u [("User-Agent", userAgent)])
    (requests (fst f)).
Proof.
  intros Hf.
  destruct (ParseIndexFromSite_cases _ _ _ _ _ _ _ _ Hf)
    as [[_ ->]|(p & Hp & [(e & _ & ->)|(u & Hu & [(e & _ & ->)|(req0 & Hreq & Hdo)])])];
    [constructor|constructor|constructor|].
  assert (Hone : requests (fst f) =
                 [(with_index_timeouts (proxied_client u),
                   Header_Set req0 "User-Agent" userAgent)]).
  { destruct Hdo as [(e & _ & ->)|(body & pevs & d' & s' & ret & _ & HP & ->)];
      [reflexivity|].
    simpl. rewrite requests_app.
    pose proof (ParseIndex_no_requests _ _ _ _ _ HP) as Hnone. simpl in Hnone.
    rewrite Hnone. reflexivity. }
  rewrite Hone. constructor; [|constructor]. split.
  - exists p, u. auto.
  - exact (sent_request w sitemapURL userAgent req0 Hreq).
Qed.

(** X6: no client of the retrieval layer verifies the server
    certificate: every request of [ParseFromSite], proxied or direct, and
    every request of [ParseIndexFromSite] goes through a transport with
    [InsecureSkipVerify] set. *)
Theorem no_request_verifies_certificates {St : Type} (w : World) (rules : Rules)
    (sitemapURL : string) (proxyServers : list string) (userAgent : string) :
  (forall (consumer : EntryConsumer St) (s : St) (f : Fetch St),
      ParseFromSite w rules sitemapURL proxyServers userAgent consumer s = Some f ->
      Forall (fun cr => InsecureSkipVerify (ClientTransport (fst cr)) = true)
        (requests (fst f))) /\
  (forall (consumer : IndexEntryConsumer St) (s : St) (f : Fetch St),
      ParseIndexFromSite w rules sitemapURL proxyServers userAgent consumer s = Some f ->
      Forall (fun cr => InsecureSkipVerify (ClientTransport (fst cr)) = true)
        (requests (fst f))).
Proof.
  split; intros consumer s f Hf.
  - eapply Forall_impl; [|exact (ParseFromSite_requests _ _ _ _ _ _ _ _ Hf)].
    intros cr [[->|(p & u & _ & _ & ->)] _]; reflexivity.
  - eapply Forall_impl; [|exact (ParseIndexFromSite_requests _ _ _ _ _ _ _ _ Hf)].
    intros cr [(p & u & _ & _ & ->) _]. reflexivity.
Qed.

Lemma no_request_verifies_certificates_witness :
  exists fp fi,
    ParseFromSite proxy_stalls sample_rules sample_site [sample_proxy] sample_agent
      counting 0 = Some fp /\
    ParseIndexFromSite (all_reachable two_sitemaps) sample_rules sample_site
      [sample_proxy] sample_agent counting_index 0 = Some fi /\
    length (requests (fst fp)) = 2 /\
    length (requests (fst fi)) = 1 /\
    Forall (fun cr => InsecureSkipVerify (ClientTransport (fst cr)) = true)
      (requests (fst fp)) /\
    Forall (fun cr => InsecureSkipVerify (ClientTransport (fst cr)) = true)
      (requests (fst fi)).
Proof.
  do 2 eexists.
  match goal with
  | |- ?page /\ ?index /\ _ =>
      assert (Hp : page) by (vm_compute; reflexivity);
      assert (Hi : index) by (vm_compute; reflexivity)
  end.
  split; [exact Hp|]. split; [exact Hi|].
  split; [reflexivity|]. split; [reflexivity|].
  split.
  - exact (proj1 (no_request_verifies_certificates proxy_stalls sample_rules sample_site
                    [sample_proxy] sample_agent) counting 0 _ Hp).
  - exact (proj2 (no_request_verifies_certificates (all_reachable two_sitemaps)
                    sample_rules sample_site [sample_proxy] sample_agent)
             counting_index 0 _ Hi).
Defined.

(** X7: every request of either fetch is a GET for the parsed site URL
    whose only header is the User-Agent the caller gave; the direct
    request of the fallback is the same request as the proxied one. *)
Theorem requests_are_GET_with_the_agent {St : Type} (w : World) (rules : Rules)
    (sitemapURL : string) (proxyServers : list string) (userAgent : string) :
  (forall (consumer : EntryConsumer St) (s : St) (f : Fetch St),
      ParseFromSite w rules sitemapURL proxyServers userAgent consumer s = Some f ->
      exists u,
        Forall (fun cr => url_Parse w sitemapURL = Ok u /\
                          snd cr = mkRequest "GET" u [("User-Agent", userAgent)])
          (requests (fst f))) /\
  (forall (consumer : IndexEntryConsumer St) (s : St) (f : Fetch St),
      ParseIndexFromSite w rules sitemapURL proxyServers userAgent consumer s = Some f ->
      exists u,
        Forall (fun cr => url_Parse w sitemapURL = Ok u /\
                          snd cr = mkRequest "GET" u [("User-Agent", userAgent)])
          (requests (fst f))).
Proof.
  assert (Hshape : forall (P : Client * Request -> Prop) (rs : list (Client * Request)),
             Forall (fun cr => P cr /\
                               exists u, url_Parse w sitemapURL = Ok u /\
                                 snd cr = mkRequest "GET" u [("User-Agent", userAgent)]) rs ->
             exists u,
               Forall (fun cr => url_Parse w sitemapURL = Ok u /\
                                 snd cr = mkRequest "GET" u [("User-Agent", userAgent)]) rs).
  { intros P rs H. destruct (url_Parse w sitemapURL) as [u|e] eqn:Eu.
    - exists u. eapply Forall_impl; [|exact H].
      intros cr [_ (u' & Hu' & Hcr)]. injection Hu' as <-. auto.
    - exists (mkURL ""). eapply Forall_impl; [|exact H].
      intros cr [_ (u' & Hu' & _)]. discriminate. }
  split; intros consumer s f Hf.
  - exact (Hshape _ _ (ParseFromSite_requests _ _ _ _ _ _ _ _ Hf)).
  - exact (Hshape _ _ (ParseIndexFromSite_requests _ _ _ _ _ _ _ _ Hf)).
Qed.

Lemma requests_are_GET_with_the_agent_witness :
  exists fp,
    ParseFromSite proxy_stalls sample_rules sample_site [sample_proxy] sample_agent
      counting 0 = Some fp /\
    length (requests (fst fp)) = 2 /\
    Forall (fun cr => snd cr = mkRequest "GET" (mkURL sample_site)
                                 [("User-Agent", sample_agent)])
      (requests (fst fp)).
Proof.
  eexists.
  match goal with
  | |- ?page /\ _ => assert (Hp : page) by (vm_compute; reflexivity)
  end.
  split; [exact Hp|]. split; [reflexivity|].
  destruct (proj1 (requests_are_GET_with_the_agent proxy_stalls sample_rules sample_site
                     [sample_proxy] sample_agent) counting 0 _ Hp) as [u Hall].
  eapply Forall_impl; [|exact Hall].
  intros cr [Hu Hcr]. injection Hu as <-. exact Hcr.
Defined.

(** ** Bad URLs and failed requests *)

(** X9: when no proxy URL of a non-empty pool parses, [ParseFromSite]
    sends no request at all, not even a direct one, never calls the
    consumer, and returns the parse failure of one of the proxies
    re-created as a string. *)
Theorem unparseable_proxies_block_the_fetch {St : Type} (w : World) (rules : Rules)
    (sitemapURL : string) (proxyServers : list string) (userAgent : string)
    (consumer : EntryConsumer St) (s : St) (f : Fetch St) :
  proxyServers <> [] ->
  (forall p, In p proxyServers -> exists e, url_Parse w p = Err e) ->
  ParseFromSite w rules sitemapURL proxyServers userAgent consumer s = Some f ->
  requests (fst f) = [] /\
  consumer_calls (fst f) = [] /\
  fst (snd f) = s /\
  exists p e,
    In p proxyServers /\ url_Parse w p = Err e /\
    how_it_ended f = Returns (Some (Errorf_v "failed to parse proxy URL" e)).
Proof.
  intros Hne Hbad Hf.
  destruct (ParseFromSite_cases _ _ _ _ _ _ _ _ Hf)
    as [[Hnil _]|(p & Hp & [(e & He & ->)|(u & evs & s1 & ret & Hu & _)])].
  - contradiction.
  - repeat split. exists p, e. auto.
  - exfalso. destruct (Hbad p Hp) as [e He]. congruence.
Qed.

Lemma unparseable_proxies_block_the_fetch_witness :
  exists f,
    ParseFromSite no_proxy_parses sample_rules sample_site [sample_proxy] sample_agent
      counting 0 = Some f /\
    requests (fst f) = [] /\
    how_it_ended f =
      Returns (Some (Errorf_v "failed to parse proxy URL"
                       (urlError "parse" sample_proxy (errorString "invalid port")))).
Proof.
  eexists.
  match goal with
  | |- ?page /\ _ => assert (Hp : page) by (vm_compute; reflexivity)
  end.
  split; [exact Hp|].
  destruct (unparseable_proxies_block_the_fetch no_proxy_parses sample_rules sample_site
              [sample_proxy] sample_agent counting 0 _ ltac:(discriminate)
              ltac:(intros p [<-|[]]; eexists; reflexivity) Hp)
    as (Hreqs & _ & _ & p & e & [<-|[]] & He & Hend).
  split; [exact Hreqs|].
  injection He as <-. exact Hend.
Defined.

(** X10: when the site URL does not parse, neither fetch sends a request
    or calls the consumer; with a proxy in the pool whose URL parses,
    both return the failure re-created as the string error
    [failed to create request], and [ParseFromSite] attempts no
    fallback. *)
Theorem unparseable_site_sends_nothing {St : Type} (w : World) (rules : Rules)
    (sitemapURL : string) (proxyServers : list string) (userAgent : string) (e : error) :
  url_Parse w sitemapURL = Err e ->
  (forall (consumer : EntryConsumer St) (s : St) (f : Fetch St),
      ParseFromSite w rules sitemapURL proxyServers userAgent consumer s = Some f ->
      requests (fst f) = [] /\ consumer_calls (fst f) = [] /\ fst (snd f) = s /\
      ((forall p, In p proxyServers -> exists u, url_Parse w p = Ok u) ->
       proxyServers <> [] ->
       how_it_ended f = Returns (Some (Errorf_v "failed to create request" e)))) /\
  (forall (consumer : IndexEntryConsumer St) (s : St) (f : Fetch St),
      ParseIndexFromSite w rules sitemapURL proxyServers userAgent consumer s = Some f ->
      requests (fst f) = [] /\ index_consumer_calls (fst f) = [] /\ fst (snd f) = s /\
      ((forall p, In p proxyServers -> exists u, url_Parse w p = Ok u) ->
       proxyServers <> [] ->
       how_it_ended f = Returns (Some (Errorf_v "failed to create request" e)))).
Proof.
  intros Hsite.
  assert (Hreq : http_NewRequest w "GET" sitemapURL = Err e).
  { unfold http_NewRequest. rewrite Hsite. reflexivity. }
  split; intros consumer s f Hf.
  - destruct (ParseFromSite_cases _ _ _ _ _ _ _ _ Hf)
      as [[Hnil ->]|(p & Hp & [(e' & He' & ->)|(u & evs & s1 & ret & Hu & Hmk & Hrest)])].
    + repeat split. intros _ Hne. contradiction.
    + repeat split. intros Hgood _. destruct (Hgood p Hp) as [u Hu]. congruence.
    + rewrite (makeRequest_not_sent _ _ _ _ _ _ _ _ Hreq) in Hmk.
      injection Hmk as <- <- <-.
      destruct Hrest as [[_ ->]|(err & evs2 & s2 & ret2 & Herr & Ht & _)].
      * repeat split.
      * injection Herr as <-. discriminate Ht.
  - destruct (ParseIndexFromSite_cases _ _ _ _ _ _ _ _ Hf)
      as [[Hnil ->]|(p & Hp & [(e' & He' & ->)|(u & Hu &
            [(e' & He' & ->)|(req0 & Hreq0 & _)])])].
    + repeat split. intros _ Hne. contradiction.
    + repeat split. intros Hgood _. destruct (Hgood p Hp) as [u Hu]. congruence.
    + repeat split. intros _ _. rewrite Hreq in He'. injection He' as <-. reflexivity.
    + congruence.
Qed.

Lemma unparseable_site_sends_nothing_witness :
  exists fp fi,
    ParseFromSite bad_site_url sample_rules sample_site [sample_proxy] sample_agent
      counting 0 = Some fp /\
    ParseIndexFromSite bad_site_url sample_rules sample_site [sample_proxy] sample_agent
      counting_index 0 = Some fi /\
    requests (fst fp) = [] /\ requests (fst fi) = [] /\
    how_it_ended fp = how_it_ended fi.
Proof.
  do 2 eexists.
  match goal with
  | |- ?page /\ ?index /\ _ =>
      assert (Hp : page) by (vm_compute; reflexivity);
      assert (Hi : index) by (vm_compute; reflexivity)
  end.
  split; [exact Hp|]. split; [exact Hi|].
  pose proof (unparseable_site_sends_nothing (St := nat) bad_site_url sample_rules sample_site
                [sample_proxy] sample_agent
                (urlError "parse" sample_site (errorString "missing protocol scheme"))
                eq_refl) as [Hpage Hindex].
  destruct (Hpage counting 0 _ Hp) as (Hrp & _ & _ & Hendp).
  destruct (Hindex counting_index 0 _ Hi) as (Hri & _ & _ & Hendi).
  split; [exact Hrp|]. split; [exact Hri|].
  assert (Hgood : forall p, In p [sample_proxy] -> exists u, url_Parse bad_site_url p = Ok u)
    by (intros p [<-|[]]; eexists; reflexivity).
  exact (eq_trans (Hendp Hgood ltac:(discriminate))
           (eq_sym (Hendi Hgood ltac:(discriminate)))).
Defined.

(** ** Responses, bodies and the consumer *)

Lemma answered_app (w : World) (a b : list (Client * Request)) :
  answered w (a ++ b) = answered w a + answered w b.
Proof. unfold answered. rewrite filter_app, length_app. reflexivity. Qed.

Lemma Parse_calls_only {St : Type} (rules : Rules) (reader : Reader)
    (consumer : EntryConsumer St) (s : St) (w : Walk St) :
  Parse rules reader consumer s = Some w ->
  requests (fst w) = [] /\ closes (fst w) = 0.
Proof.
  intros H. split; [exact (Parse_no_requests _ _ _ _ _ H)|exact (Parse_no_close _ _ _ _ _ H)].
Qed.

(** What [makeRequest] leaves behind, by whether the request was
    answered. *)
Lemma makeRequest_summary {St : Type} (w : World) (rules : Rules) (client : Client)
    (sitemapURL userAgent : string) (consumer : EntryConsumer St) (s s' : St)
    (evs : list event) (ret : option error) :
  makeRequest w rules client sitemapURL userAgent consumer s = Some (evs, (s', ret)) ->
  closes evs = answered w (requests evs) /\
  (answered w (requests evs) = 0 ->
   consumer_calls evs = [] /\ s' = s /\ exists msg, ret = Some (errorString msg)) /\
  (ret = None -> exists pre, evs = pre ++ [EvClose]).
Proof.
  intros Hmk.
  destruct (makeRequest_cases _ _ _ _ _ _ _ _ _ _ Hmk)
    as [(e & _ & -> & -> & ->)
       |[(req0 & e & _ & Hdo & -> & -> & ->)
        |(req0 & body & pevs & d' & _ & Hdo & HP & ->)]].
  - repeat split; try discriminate. eexists; reflexivity.
  - unfold answered, is_answered. simpl. rewrite Hdo.
    repeat split; try discriminate. eexists; reflexivity.
  - destruct (Parse_calls_only _ _ _ _ _ HP) as [Hnone Hclose]. simpl in Hnone, Hclose.
    assert (Hans : answered w (requests
                     (EvDo client (Header_Set req0 "User-Agent" userAgent)
                        :: pevs ++ [EvClose])) = 1).
    { simpl. rewrite requests_app, Hnone. unfold answered, is_answered. simpl.
      rewrite Hdo. reflexivity. }
    rewrite Hans. split; [|split].
    + change (closes (EvDo ?c ?r :: ?l)) with (closes l).
      rewrite closes_app, Hclose. reflexivity.
    + discriminate.
    + intros _. exists (EvDo client (Header_Set req0 "User-Agent" userAgent) :: pevs).
      reflexivity.
Qed.

Lemma ParseFromSite_closes {St : Type} (w : World) (rules : Rules)
    (sitemapURL : string) (proxyServers : list string) (userAgent : string)
    (consumer : EntryConsumer St) (s : St) (f : Fetch St) :
  ParseFromSite w rules sitemapURL proxyServers userAgent consumer s = Some f ->
  closes (fst f) = answered w (requests (fst f)).
Proof.
  intros Hf.
  destruct (ParseFromSite_cases _ _ _ _ _ _ _ _ Hf)
    as [[_ ->]|(p & Hp & [(e & _ & ->)|(u & evs & s1 & ret & Hu & Hmk & Hrest)])];
    [reflexivity|reflexivity|].
  destruct (makeRequest_summary _ _ _ _ _ _ _ _ _ _ Hmk) as [Hc _].
  destruct Hrest as [[_ ->]|(err & evs2 & s2 & ret2 & -> & Ht & Hmk2 & ->)];
    [exact Hc|].
  destruct (makeRequest_summary _ _ _ _ _ _ _ _ _ _ Hmk2) as [Hc2 _].
  cbn [fst]. rewrite !closes_app, !requests_app, !answered_app, Hc, Hc2. reflexivity.
Qed.

Lemma ParseIndexFromSite_closes {St : Type} (w : World) (rules : Rules)
    (sitemapURL : string) (proxyServers : list string) (userAgent : string)
    (consumer : IndexEntryConsumer St) (s : St) (f : Fetch St) :
  ParseIndexFromSite w rules sitemapURL proxyServers userAgent consumer s = Some f ->
  closes (fst f) = answered w (requests (fst f)).
Proof.
  intros Hf.
  destruct (ParseIndexFromSite_cases _ _ _ _ _ _ _ _ Hf)
    as [[_ ->]|(p & Hp & [(e & _ & ->)|(u & Hu & [(e & _ & ->)|(req0 & _ & Hdo)])])];
    [reflexivity|reflexivity|reflexivity|].
  destruct Hdo as [(e & Hdo & ->)|(body & pevs & d' & s' & ret & Hdo & HP & ->)].
  - unfold answered, is_answered. simpl. rewrite Hdo. reflexivity.
  - pose proof (ParseIndex_no_requests _ _ _ _ _ HP) as Hnone.
    pose proof (walk_events_no_close _ (ParseIndex_walk_events _ _ _ _ _ HP)) as Hclose.
    simpl in Hnone, Hclose. cbn [fst].
    change (closes (EvDo ?c ?r :: ?l)) with (closes l).
    rewrite closes_app, Hclose. simpl. rewrite requests_app, Hnone.
    unfold answered, is_answered. simpl. rewrite Hdo. reflexivity.
Qed.

(** X11: each fetch closes the response body exactly once for every
    request that was answered, on every path (a nil return, a validation
    or tokenizer error, a consumer error), and closes nothing for a
    request that failed or was never sent. *)
Theorem body_closed_once_per_response {St : Type} (w : World) (rules : Rules)
    (sitemapURL : string) (proxyServers : list string) (userAgent : string) :
  (forall (consumer : EntryConsumer St) (s : St) (f : Fetch St),
      ParseFromSite w rules sitemapURL proxyServers userAgent consumer s = Some f ->
      closes (fst f) = answered w (requests (fst f))) /\
  (forall (consumer : IndexEntryConsumer St) (s : St) (f : Fetch St),
      ParseIndexFromSite w rules sitemapURL proxyServers userAgent consumer s = Some f ->
      closes (fst f) = answered w (requests (fst f))).
Proof.
  split; intros consumer s f Hf.
  - exact (ParseFromSite_closes _ _ _ _ _ _ _ _ Hf).
  - exact (ParseIndexFromSite_closes _ _ _ _ _ _ _ _ Hf).
Qed.

Lemma body_closed_once_per_response_witness :
  exists fp fi,
    ParseFromSite proxy_stalls sample_rules sample_site [sample_proxy] sample_agent
      counting 0 = Some fp /\
    ParseIndexFromSite proxy_times_out sample_rules sample_site [sample_proxy]
      sample_agent counting_index 0 = Some fi /\
    closes (fst fp) = 2 /\ answered proxy_stalls (requests (fst fp)) = 2 /\
    closes (fst fi) = 0 /\ answered proxy_times_out (requests (fst fi)) = 0.
Proof.
  do 2 eexists.
  match goal with
  | |- ?page /\ ?index /\ _ =>
      assert (Hp : page) by (vm_compute; reflexivity);
      assert (Hi : index) by (vm_compute; reflexivity)
  end.
  split; [exact Hp|]. split; [exact Hi|].
  pose proof (proj1 (body_closed_once_per_response proxy_stalls sample_rules sample_site
                       [sample_proxy] sample_agent) counting 0 _ Hp) as Hcp.
  pose proof (proj2 (body_closed_once_per_response proxy_times_out sample_rules
                       sample_site [sample_proxy] sample_agent) counting_index 0 _ Hi)
    as Hci.
  split; [reflexivity|]. split; [rewrite <- Hcp; reflexivity|].
  split; [reflexivity|]. rewrite <- Hci. reflexivity.
Defined.

(** X12: a fetch returns nil only after a response: its last event is
    the close of a body that was received and parsed to the end.  No
    path returns nil without an answered request. *)
Theorem nil_return_follows_a_parsed_response {St : Type} (w : World) (rules : Rules)
    (sitemapURL : string) (proxyServers : list string) (userAgent : string) :
  (forall (consumer : EntryConsumer St) (s : St) (f : Fetch St),
      ParseFromSite w rules sitemapURL proxyServers userAgent consumer s = Some f ->
      how_it_ended f = Returns None ->
      (exists pre, fst f = pre ++ [EvClose]) /\ 1 <= answered w (requests (fst f))) /\
  (forall (consumer : IndexEntryConsumer St) (s : St) (f : Fetch St),
      ParseIndexFromSite w rules sitemapURL proxyServers userAgent consumer s = Some f ->
      how_it_ended f = Returns None ->
      (exists pre, fst f = pre ++ [EvClose]) /\ 1 <= answered w (requests (fst f))).
Proof.
  assert (Hcount : forall pre, 1 <= closes (pre ++ [EvClose])).
  { intros pre. rewrite closes_app. change (closes [EvClose]) with 1. lia. }
  split; intros consumer s f Hf Hnil.
  - pose proof (ParseFromSite_closes _ _ _ _ _ _ _ _ Hf) as Hclosed.
    assert (Hlast : exists pre, fst f = pre ++ [EvClose]).
    { destruct (ParseFromSite_cases _ _ _ _ _ _ _ _ Hf)
        as [[_ ->]|(p & Hp & [(e & _ & ->)|(u & evs & s1 & ret & Hu & Hmk & Hrest)])];
        try discriminate.
      destruct Hrest as [[_ ->]|(err & evs2 & s2 & ret2 & -> & Ht & Hmk2 & ->)].
      - injection Hnil as ->.
        destruct (makeRequest_summary _ _ _ _ _ _ _ _ _ _ Hmk) as (_ & _ & Hpre).
        exact (Hpre eq_refl).
      - injection Hnil as ->.
        destruct (makeRequest_summary _ _ _ _ _ _ _ _ _ _ Hmk2) as (_ & _ & Hpre).
        destruct (Hpre eq_refl) as [pre ->]. cbn [fst].
        eexists. rewrite !app_assoc. reflexivity. }
    split; [exact Hlast|]. destruct Hlast as [pre Hpre].
    rewrite <- Hclosed, Hpre. apply Hcount.
  - pose proof (ParseIndexFromSite_closes _ _ _ _ _ _ _ _ Hf) as Hclosed.
    assert (Hlast : exists pre, fst f = pre ++ [EvClose]).
    { destruct (ParseIndexFromSite_cases _ _ _ _ _ _ _ _ Hf)
        as [[_ ->]|(p & Hp & [(e & _ & ->)|(u & Hu & [(e & _ & ->)|(req0 & _ &
              [(e & _ & ->)|(body & pevs & d' & s' & ret & _ & _ & ->)])])])];
        try discriminate.
      cbn [fst]. eexists (_ :: _). reflexivity. }
    split; [exact Hlast|]. destruct Hlast as [pre Hpre].
    rewrite <- Hclosed, Hpre. apply Hcount.
Qed.

Lemma nil_return_follows_a_parsed_response_witness :
  exists fi pre,
    ParseIndexFromSite (all_reachable two_sitemaps) sample_rules sample_site
      [sample_proxy] sample_agent counting_index 0 = Some fi /\
    how_it_ended fi = Returns None /\
    fst fi = pre ++ [EvClose] /\
    1 <= answered (all_reachable two_sitemaps) (requests (fst fi)).
Proof.
  destruct (ParseIndexFromSite (all_reachable two_sitemaps) sample_rules sample_site
              [sample_proxy] sample_agent counting_index 0) as [fi|] eqn:Hf;
    [|discriminate Hf].
  assert (Hnil : how_it_ended fi = Returns None).
  { vm_compute in Hf. injection Hf as <-. reflexivity. }
  destruct (proj2 (nil_return_follows_a_parsed_response (all_reachable two_sitemaps)
                     sample_rules sample_site [sample_proxy] sample_agent)
              counting_index 0 fi Hf Hnil) as [[pre Hpre] Hans].
  exists fi, pre. auto.
Defined.

(** X13: when no request of [ParseFromSite] was answered, the consumer
    was never called, its state comes back unchanged, and the error the
    call returns is a plain string error: it is no [net.Error] and wraps
    nothing, whatever the failure was. *)
Theorem unanswered_fetch_fails_with_a_string {St : Type} (w : World) (rules : Rules)
    (sitemapURL : string) (proxyServers : list string) (userAgent : string)
    (consumer : EntryConsumer St) (s : St) (f : Fetch St) :
  proxyServers <> [] ->
  ParseFromSite w rules sitemapURL proxyServers userAgent consumer s = Some f ->
  answered w (requests (fst f)) = 0 ->
  consumer_calls (fst f) = [] /\
  fst (snd f) = s /\
  exists msg, how_it_ended f = Returns (Some (errorString msg)).
Proof.
  intros Hne Hf Hans.
  destruct (ParseFromSite_cases _ _ _ _ _ _ _ _ Hf)
    as [[Hnil _]|(p & Hp & [(e & _ & ->)|(u & evs & s1 & ret & Hu & Hmk & Hrest)])].
  - contradiction.
  - repeat split. eexists; reflexivity.
  - destruct (makeRequest_summary _ _ _ _ _ _ _ _ _ _ Hmk) as (_ & Hquiet & _).
    destruct Hrest as [[_ ->]|(err & evs2 & s2 & ret2 & -> & Ht & Hmk2 & ->)].
    + destruct (Hquiet Hans) as (Hcalls & -> & msg & ->).
      repeat split; [exact Hcalls|]. exists msg. reflexivity.
    + exfalso. cbn [fst] in Hans. rewrite !requests_app, !answered_app in Hans.
      destruct (Hquiet ltac:(lia)) as (_ & _ & msg & Hmsg).
      injection Hmsg as ->. discriminate Ht.
Qed.

Lemma unanswered_fetch_fails_with_a_string_witness :
  exists f msg,
    ParseFromSite proxy_times_out sample_rules sample_site [sample_proxy] sample_agent
      counting 0 = Some f /\
    answered proxy_times_out (requests (fst f)) = 0 /\
    length (requests (fst f)) = 1 /\
    fst (snd f) = 0 /\
    how_it_ended f = Returns (Some (errorString msg)).
Proof.
  destruct (ParseFromSite proxy_times_out sample_rules sample_site [sample_proxy]
              sample_agent counting 0) as [f|] eqn:Hf; [|discriminate Hf].
  assert (Hans : answered proxy_times_out (requests (fst f)) = 0
                 /\ length (requests (fst f)) = 1).
  { vm_compute in Hf. injection Hf as <-. split; reflexivity. }
  destruct Hans as [Hans Hlen].
  destruct (unanswered_fetch_fails_with_a_string proxy_times_out sample_rules sample_site
              [sample_proxy] sample_agent counting 0 f ltac:(discriminate) Hf Hans)
    as (_ & Hs & msg & Hmsg).
  exists f, msg. auto.
Defined.

(** ** The file entry points *)

Lemma ParseFromFile_total {St : Type} (fs : FileSystem) (rules : Rules)
    (sitemapPath : string) (consumer : EntryConsumer St) (s : St) :
  exists r, ParseFromFile fs rules sitemapPath consumer s = Some r.
Proof.
  unfold ParseFromFile. destruct (fs sitemapPath) as [file|err]; eauto.
  destruct (Parse_total rules file consumer s) as [[evs [[d' s'] ret]] ->]. eauto.
Qed.

Lemma ParseIndexFromFile_total {St : Type} (fs : FileSystem) (rules : Rules)
    (sitemapPath : string) (consumer : IndexEntryConsumer St) (s : St) :
  exists r, ParseIndexFromFile fs rules sitemapPath consumer s = Some r.
Proof.
  unfold ParseIndexFromFile. destruct (fs sitemapPath) as [file|err]; eauto.
  destruct (ParseIndex_total rules file consumer s) as [[evs [[d' s'] ret]] ->]. eauto.
Qed.

(** X14: on every file that opens and can be read to its end without a
    read error, whatever it holds, [ParseFromFile] logs the whole
    content, finds the end of the file at the first token read, closes
    the file and returns nil; the consumer is never called and its state
    is unchanged. *)
Theorem ParseFromFile_never_delivers {St : Type} (fs : FileSystem) (rules : Rules)
    (sitemapPath : string) (consumer : EntryConsumer St) (s : St) (file : Reader) :
  fs sitemapPath = Ok file ->
  forallb is_data file = true ->
  ParseFromFile fs rules sitemapPath consumer s =
  Some ([EvReadAll file None; EvLogBody file; EvToken (Err io_EOF); EvClose], (s, None)).
Proof.
  intros Hopen Hdata. unfold ParseFromFile.
  rewrite Hopen, (Parse_after_full_read rules file consumer s Hdata). reflexivity.
Qed.

Lemma ParseFromFile_never_delivers_witness :
  ParseFromFile (one_file three_pages) sample_rules "sitemap.xml" counting 0 =
  Some ([EvReadAll (stream_of three_pages) None; EvLogBody (stream_of three_pages);
         EvToken (Err io_EOF); EvClose], (0, None)).
Proof.
  apply (ParseFromFile_never_delivers (one_file three_pages) sample_rules "sitemap.xml"
           counting 0 (stream_of three_pages)); reflexivity.
Defined.

(** X15: [ParseFromFile] and [ParseIndexFromFile] return an open error
    as it is, unwrapped, with no event at all and the consumer state
    unchanged; when the file opens they close it exactly once, as the
    last event of the call, on every path of the parse. *)
Theorem file_closed_once_iff_opened {St : Type} (fs : FileSystem) (rules : Rules)
    (sitemapPath : string) :
  (forall (consumer : EntryConsumer St) (s s' : St) (evs : list event)
          (ret : option error),
      ParseFromFile fs rules sitemapPath consumer s = Some (evs, (s', ret)) ->
      match fs sitemapPath with
      | Err err => evs = [] /\ s' = s /\ ret = Some err
      | Ok _ => closes evs = 1 /\ exists pre, evs = pre ++ [EvClose]
      end) /\
  (forall (consumer : IndexEntryConsumer St) (s s' : St) (evs : list event)
          (ret : option error),
      ParseIndexFromFile fs rules sitemapPath consumer s = Some (evs, (s', ret)) ->
      match fs sitemapPath with
      | Err err => evs = [] /\ s' = s /\ ret = Some err
      | Ok _ => closes evs = 1 /\ exists pre, evs = pre ++ [EvClose]
      end).
Proof.
  split; intros consumer s s' evs ret.
  - unfold ParseFromFile. destruct (fs sitemapPath) as [file|err].
    + destruct (Parse rules file consumer s) as [[pevs [[d' s1] ret1]]|] eqn:HP;
        [|discriminate].
      intros H. injection H as <- <- <-.
      pose proof (Parse_no_close _ _ _ _ _ HP) as Hclose. simpl in Hclose.
      split; [|eexists; reflexivity].
      rewrite closes_app, Hclose. reflexivity.
    + intros H. injection H as <- <- <-. auto.
  - unfold ParseIndexFromFile. destruct (fs sitemapPath) as [file|err].
    + destruct (ParseIndex rules file consumer s) as [[pevs [[d' s1] ret1]]|] eqn:HP;
        [|discriminate].
      intros H. injection H as <- <- <-.
      pose proof (walk_events_no_close _ (ParseIndex_walk_events _ _ _ _ _ HP)) as Hclose.
      simpl in Hclose. split; [|eexists; reflexivity].
      rewrite closes_app, Hclose. reflexivity.
    + intros H. injection H as <- <- <-. auto.
Qed.

Lemma file_closed_once_iff_opened_witness :
  exists evs s' ret pre,
    ParseIndexFromFile (one_file two_sitemaps) sample_rules "sitemap.xml"
      counting_index 0 = Some (evs, (s', ret)) /\
    length (index_consumer_calls evs) = 2 /\
    closes evs = 1 /\ evs = pre ++ [EvClose].
Proof.
  destruct (ParseIndexFromFile (one_file two_sitemaps) sample_rules "sitemap.xml"
              counting_index 0) as [[evs [s' ret]]|] eqn:Hf; [|discriminate Hf].
  assert (Hcalls : length (index_consumer_calls evs) = 2).
  { vm_compute in Hf. injection Hf as <- _ _. reflexivity. }
  pose proof (proj2 (file_closed_once_iff_opened (one_file two_sitemaps) sample_rules
                       "sitemap.xml") counting_index 0 s' evs ret Hf) as Hclosed.
  change (one_file two_sitemaps "sitemap.xml") with (@Ok Reader (stream_of two_sitemaps))
    in Hclosed.
  destruct Hclosed as [Hone [pre Hpre]].
  exists evs, s', ret, pre. auto.
Defined.

(** ** The page fetch on a readable body *)



(** ** What the two fetches share *)

(** C5 (amended): for every world, URL, proxy pool and user agent,
    [ParseFromSite] and [ParseIndexFromSite] perform the same proxy
    selection and the same request construction.  Either both stop
    before sending a request and end the same way; or the first request
    of both is the same GET request with the same User-Agent header,
    through the parsed URL of the same proxy of the pool, with
    certificate verification off, under an overall timeout of 20 s for
    the page fetch and of 60 s for the index fetch. *)
Theorem fetches_share_selection_and_request {St Sti : Type} (w : World) (rules : Rules)
    (sitemapURL : string) (proxyServers : list string) (userAgent : string)
    (consumer : EntryConsumer St) (indexConsumer : IndexEntryConsumer Sti)
    (s : St) (si : Sti) (fp : Fetch St) (fi : Fetch Sti) :
  ParseFromSite w rules sitemapURL proxyServers userAgent consumer s = Some fp ->
  ParseIndexFromSite w rules sitemapURL proxyServers userAgent indexConsumer si = Some fi ->
  (requests (fst fp) = [] /\ requests (fst fi) = [] /\
   how_it_ended fi = how_it_ended fp) \/
  exists selectedProxy proxyURL site pageClient indexClient,
    In selectedProxy proxyServers /\
    url_Parse w selectedProxy = Ok proxyURL /\
    url_Parse w sitemapURL = Ok site /\
    hd_error (requests (fst fp)) =
      Some (pageClient, mkRequest "GET" site [("User-Agent", userAgent)]) /\
    hd_error (requests (fst fi)) =
      Some (indexClient, mkRequest "GET" site [("User-Agent", userAgent)]) /\
    Proxy (ClientTransport pageClient) = Some proxyURL /\
    Proxy (ClientTransport indexClient) = Some proxyURL /\
    InsecureSkipVerify (ClientTransport pageClient) = true /\
    InsecureSkipVerify (ClientTransport indexClient) = true /\
    ClientTimeout pageClient = (20 * Second)%Z /\
    ClientTimeout indexClient = (60 * Second)%Z.
Proof.
  intros Hp Hi.
  apply ParseFromSite_first_attempt in Hp.
  apply ParseIndexFromSite_first_attempt in Hi.
  unfold first_attempt in Hp, Hi.
  destruct (Intn w (UnixNano w) (length proxyServers)) as [i|msg].
  - destruct (nth_error proxyServers i) as [selectedProxy|] eqn:Hnth.
    + destruct (url_Parse w selectedProxy) as [proxyURL|err] eqn:Hproxy.
      * destruct (http_NewRequest w "GET" sitemapURL) as [req0|err] eqn:Hreq.
        -- right.
           destruct (sent_request w sitemapURL userAgent req0 Hreq) as (site & Hsite & Hsent).
           rewrite Hsent in Hp, Hi.
           exists selectedProxy, proxyURL, site.
           eexists _, _.
           split; [exact (nth_error_In _ _ Hnth)|].
           split; [exact Hproxy|]. split; [exact Hsite|].
           split; [exact Hp|]. split; [exact Hi|].
           repeat split.
        -- left. destruct Hp as [Hp1 Hp2], Hi as [Hi1 Hi2].
           rewrite Hp2, Hi2. auto.
      * left. destruct Hp as [Hp1 Hp2], Hi as [Hi1 Hi2]. rewrite Hp2, Hi2. auto.
    + left. destruct Hp as [Hp1 Hp2], Hi as [Hi1 Hi2]. rewrite Hp2, Hi2. auto.
  - left. destruct Hp as [Hp1 Hp2], Hi as [Hi1 Hi2]. rewrite Hp2, Hi2. auto.
Qed.

Lemma fetches_share_selection_and_request_witness :
  exists fp fi pageClient indexClient,
    ParseFromSite proxy_stalls sample_rules sample_site [sample_proxy] sample_agent
      counting 0 = Some fp /\
    ParseIndexFromSite proxy_stalls sample_rules sample_site [sample_proxy] sample_agent
      counting_index 0 = Some fi /\
    hd_error (requests (fst fp)) =
      Some (pageClient,
            mkRequest "GET" (mkURL sample_site) [("User-Agent", sample_agent)]) /\
    hd_error (requests (fst fi)) =
      Some (indexClient,
            mkRequest "GET" (mkURL sample_site) [("User-Agent", sample_agent)]) /\
    Proxy (ClientTransport pageClient) = Some (mkURL sample_proxy) /\
    Proxy (ClientTransport indexClient) = Some (mkURL sample_proxy) /\
    ClientTimeout pageClient = (20 * Second)%Z /\
    ClientTimeout indexClient = (60 * Second)%Z.
Proof.
  destruct (ParseFromSite proxy_stalls sample_rules sample_site [sample_proxy]
              sample_agent counting 0) as [fp|] eqn:Hp; [|discriminate Hp].
  destruct (ParseIndexFromSite proxy_stalls sample_rules sample_site [sample_proxy]
              sample_agent counting_index 0) as [fi|] eqn:Hi; [|discriminate Hi].
  destruct (fetches_share_selection_and_request proxy_stalls sample_rules sample_site
              [sample_proxy] sample_agent counting counting_index 0 0 fp fi Hp Hi)
    as [(Hnone & _)
       |(p & u & site & cp & cidx & Hin & Hu & Hsite & Hfp & Hfi & Hpp & Hpi & _ & _
           & Htp & Hti)].
  - exfalso. vm_compute in Hp. injection Hp as <-. discriminate Hnone.
  - destruct Hin as [<-|[]]. injection Hu as <-. injection Hsite as <-.
    exists fp, fi, cp, cidx. auto 10.
Defined.
